(** * AXIS assistant front-end: response interpretation and turn orchestration

    A shallow embedding of [src/index.tsx]: the reply parser
    ([parseResponse]), the failure classifier ([getApiErrorMessage]), the
    snippet runner ([handleRunCode]), the reply routing of [handleSubmit]
    and the speech effect of [App], followed by the properties stated of
    them.

    JavaScript strings are sequences of UTF-16 code units; they are
    embedded as lists of [N]. *)

From Stdlib Require Import String Ascii.
From Stdlib Require Import List NArith Arith Bool Lia.
Import ListNotations.

Set Implicit Arguments.

(** ** JavaScript strings *)

Module JS.

Definition jsstring := list N.

(** An ASCII literal as a sequence of code units. *)
Definition str (s : string) : jsstring :=
  map N_of_ascii (list_ascii_of_string s).

Arguments str s%_string.

Definition between (lo hi c : N) : bool := (lo <=? c)%N && (c <=? hi)%N.

(** The class [\w] of a regular expression without the [u] and [i] flags. *)
Definition isWordChar (c : N) : bool :=
  between 97 122 c || between 65 90 c || between 48 57 c || (c =? 95)%N.

(** WhiteSpace and LineTerminator code units, the ones [String.prototype.trim]
    strips. *)
Definition isWhiteSpace (c : N) : bool :=
  between 9 13 c || (c =? 32)%N || (c =? 160)%N || (c =? 5760)%N
  || between 8192 8202 c || (c =? 8232)%N || (c =? 8233)%N
  || (c =? 8239)%N || (c =? 8287)%N || (c =? 12288)%N || (c =? 65279)%N.

Fixpoint trimStart (s : jsstring) : jsstring :=
  match s with
  | c :: s' => if isWhiteSpace c then trimStart s' else s
  | [] => []
  end.

Definition trimEnd (s : jsstring) : jsstring := rev (trimStart (rev s)).

Definition trim (s : jsstring) : jsstring := trimEnd (trimStart s).

(** [toLowerCase] on code units.  It is exact on Basic Latin; of the other
    code units only U+0130 and U+212A have a lower case that contains Basic
    Latin letters, and they are mapped as the Unicode tables map them.  The
    remaining code units are kept: their lower case holds no Basic Latin
    letter either. *)
Definition lowerUnit (c : N) : jsstring :=
  if between 65 90 c then [(c + 32)%N]
  else if (c =? 304)%N then [105; 775]%N
  else if (c =? 8490)%N then [107]%N
  else [c].

Definition toLowerCase (s : jsstring) : jsstring := flat_map lowerUnit s.

Fixpoint eqb (a b : jsstring) : bool :=
  match a, b with
  | [], [] => true
  | x :: a', y :: b' => (x =? y)%N && eqb a' b'
  | _, _ => false
  end.

Fixpoint startsWith (p s : jsstring) : bool :=
  match p, s with
  | [], _ => true
  | x :: p', y :: s' => (x =? y)%N && startsWith p' s'
  | _ :: _, [] => false
  end.

(** [s.includes(p)] *)
Fixpoint includes (p s : jsstring) : bool :=
  startsWith p s ||
  match s with
  | [] => false
  | _ :: s' => includes p s'
  end.

(** [s.substring(a, b)]: the arguments are clamped to the length and
    swapped when out of order. *)
Definition substring (s : jsstring) (a b : nat) : jsstring :=
  let a' := Nat.min a (length s) in
  let b' := Nat.min b (length s) in
  let lo := Nat.min a' b' in
  let hi := Nat.max a' b' in
  firstn (hi - lo) (skipn lo s).

(** A string in a boolean position: the empty string is falsy. *)
Definition truthy (s : jsstring) : bool :=
  match s with [] => false | _ :: _ => true end.

(** [a || b] on strings. *)
Definition orElse (a b : jsstring) : jsstring := if truthy a then a else b.

End JS.

Import JS.

(** ** Message parts *)

Inductive MessagePart : Type :=
| Text (content : jsstring)
| Code (language : jsstring) (content : jsstring)
| Image (imageUrl : jsstring) (prompt : jsstring).

Inductive Role : Type := RoleUser | RoleAi.

Record Message : Type := mkMessage { role : Role; parts : list MessagePart }.

(** ** The fence expression and [parseResponse] *)

Module Parser.

Definition backtick : N := 96.
Definition newline : N := 10.
Definition fence : jsstring := [backtick; backtick; backtick].
Definition plaintext : jsstring := str "plaintext".

(** Backtracking matchers in continuation-passing style, one per construct
    of the expression.  A matcher takes the rest of the subject and a
    continuation for what follows it in the pattern; [None] is failure,
    after which the caller tries its next alternative. *)
Section Matchers.

Variable R : Type.

(** A literal run of characters. *)
Fixpoint lit (p s : jsstring) (k : jsstring -> option R) : option R :=
  match p with
  | [] => k s
  | c :: p' =>
      match s with
      | d :: s' => if (c =? d)%N then lit p' s' k else None
      | [] => None
      end
  end.

(** [(cls* )], greedy: the longest run first, then shorter ones.  [acc] is
    what the group has captured so far. *)
Fixpoint starGreedy (cls : N -> bool) (s acc : jsstring)
         (k : jsstring -> jsstring -> option R) : option R :=
  match s with
  | c :: s' =>
      if cls c then
        match starGreedy cls s' (acc ++ [c]) k with
        | Some r => Some r
        | None => k acc s
        end
      else k acc s
  | [] => k acc s
  end.

(** [(cls+?)], lazy: the shortest non-empty run first, then longer ones. *)
Fixpoint plusLazy (cls : N -> bool) (s acc : jsstring)
         (k : jsstring -> jsstring -> option R) : option R :=
  match s with
  | c :: s' =>
      if cls c then
        match k (acc ++ [c]) s' with
        | Some r => Some r
        | None => plusLazy cls s' (acc ++ [c]) k
        end
      else None
  | [] => None
  end.

End Matchers.

(** [[\s\S]]: every code unit. *)
Definition anyChar (c : N) : bool := isWhiteSpace c || negb (isWhiteSpace c).

(** One attempt of the expression at the head of [s]: the two captures and
    what is left of the subject after the match. *)
Definition matchAt (s : jsstring) : option (jsstring * jsstring * jsstring) :=
  lit fence s (fun s1 =>
  starGreedy isWordChar s1 [] (fun g1 s2 =>
  lit [newline] s2 (fun s3 =>
  plusLazy anyChar s3 [] (fun g2 s4 =>
  lit fence s4 (fun s5 => Some (g1, g2, s5)))))).

(** The result of [regex.exec]: [index] is [match.index], [endIndex] the
    value [regex.lastIndex] takes. *)
Record RegExpMatch : Type := mkMatch {
  index : nat;
  group1 : jsstring;
  group2 : jsstring;
  endIndex : nat
}.

(** The leftmost position from [i] on at which the expression matches; [s]
    is the subject from position [i]. *)
Fixpoint search (s : jsstring) (i : nat) : option RegExpMatch :=
  match matchAt s with
  | Some (g1, g2, rest) =>
      Some (mkMatch i g1 g2 (i + (length s - length rest)))
  | None =>
      match s with
      | [] => None
      | _ :: s' => search s' (S i)
      end
  end.

(** [regex.exec(text)] of a global expression whose [lastIndex] is
    [lastIndex]. *)
Definition exec (text : jsstring) (lastIndex : nat) : option RegExpMatch :=
  if length text <? lastIndex then None
  else search (skipn lastIndex text) lastIndex.

Definition pushText (parts : list MessagePart) (text : jsstring)
           (lastIndex upto : nat) : list MessagePart :=
  if lastIndex <? upto
  then parts ++ [Text (substring text lastIndex upto)]
  else parts.

(** The [while] loop of [parseResponse]; it gives the parts and the local
    [lastIndex] when [exec] returns [null], and [None] when [fuel] runs
    out first. *)
Fixpoint parseLoop (fuel : nat) (text : jsstring) (lastIndex : nat)
         (parts : list MessagePart) : option (list MessagePart * nat) :=
  match fuel with
  | 0 => None
  | S fuel' =>
      match exec text lastIndex with
      | Some m =>
          let parts1 := pushText parts text lastIndex (index m) in
          let parts2 :=
            parts1 ++ [Code (orElse (toLowerCase (group1 m)) plaintext)
                            (trim (group2 m))] in
          parseLoop fuel' text (endIndex m) parts2
      | None => Some (parts, lastIndex)
      end
  end.

(** [parseResponse] with the loop given [fuel] iterations. *)
Definition parseResponseFuel (fuel : nat) (text : jsstring)
  : option (list MessagePart) :=
  match parseLoop fuel text 0 [] with
  | Some (parts, lastIndex) =>
      let parts' := pushText parts text lastIndex (length text) in
      Some (match parts' with [] => [Text text] | _ :: _ => parts' end)
  | None => None
  end.

(** Every iteration moves [lastIndex] forward, so the loop body runs at
    most [length text] times before the last [exec] ([parseLoop_total]
    below).  The default is never taken. *)
Definition parseResponse (text : jsstring) : list MessagePart :=
  match parseResponseFuel (S (length text)) text with
  | Some parts => parts
  | None => []
  end.

End Parser.

Import Parser.


(** ** JSON values and [JSON.parse] *)

Module Json.

(** A number keeps its lexeme: nothing below looks at its value. *)
#[warnings="-register-all"]
Inductive value : Type :=
| JNull
| JBool (b : bool)
| JNumber (lexeme : jsstring)
| JString (s : jsstring)
| JArray (items : list value)
| JObject (members : list (jsstring * value)).

Definition isJsonWs (c : N) : bool :=
  (c =? 32)%N || (c =? 9)%N || (c =? 10)%N || (c =? 13)%N.

Fixpoint skipWs (s : jsstring) : jsstring :=
  match s with
  | c :: s' => if isJsonWs c then skipWs s' else s
  | [] => []
  end.

Definition hexDigit (c : N) : option N :=
  if between 48 57 c then Some (c - 48)%N
  else if between 97 102 c then Some (c - 87)%N
  else if between 65 70 c then Some (c - 55)%N
  else None.

Definition hex4 (a b c d : N) : option N :=
  match hexDigit a, hexDigit b, hexDigit c, hexDigit d with
  | Some x, Some y, Some z, Some t => Some (((x * 16 + y) * 16 + z) * 16 + t)%N
  | _, _, _, _ => None
  end.

(** The one-character escapes: quote, backslash, slash, b, f, n, r, t. *)
Definition simpleEscape (e : N) : option N :=
  if (e =? 34)%N then Some 34%N
  else if (e =? 92)%N then Some 92%N
  else if (e =? 47)%N then Some 47%N
  else if (e =? 98)%N then Some 8%N
  else if (e =? 102)%N then Some 12%N
  else if (e =? 110)%N then Some 10%N
  else if (e =? 114)%N then Some 13%N
  else if (e =? 116)%N then Some 9%N
  else None.

(** The characters of a string literal, after its opening quote. *)
Fixpoint parseChars (s acc : jsstring) : option (jsstring * jsstring) :=
  match s with
  | [] => None
  | c :: s' =>
      if (c =? 34)%N then Some (acc, s')
      else if (c =? 92)%N then
        match s' with
        | [] => None
        | e :: s'' =>
            if (e =? 117)%N then
              match s'' with
              | h1 :: h2 :: h3 :: h4 :: s3 =>
                  match hex4 h1 h2 h3 h4 with
                  | Some u => parseChars s3 (acc ++ [u])
                  | None => None
                  end
              | _ => None
              end
            else
              match simpleEscape e with
              | Some u => parseChars s'' (acc ++ [u])
              | None => None
              end
        end
      else if (c <? 32)%N then None
      else parseChars s' (acc ++ [c])
  end.

Fixpoint digits (s acc : jsstring) : jsstring * jsstring :=
  match s with
  | c :: s' => if between 48 57 c then digits s' (acc ++ [c]) else (acc, s)
  | [] => (acc, [])
  end.

Definition parseInt (s : jsstring) : option (jsstring * jsstring) :=
  match s with
  | c :: s' =>
      if (c =? 48)%N then Some ([c], s')
      else if between 49 57 c then Some (digits s [])
      else None
  | [] => None
  end.

Definition parseFrac (s : jsstring) : option (jsstring * jsstring) :=
  match s with
  | c :: s' =>
      if (c =? 46)%N then
        match digits s' [] with
        | ([], _) => None
        | (ds, r) => Some (c :: ds, r)
        end
      else Some ([], s)
  | [] => Some ([], [])
  end.

Definition parseExp (s : jsstring) : option (jsstring * jsstring) :=
  match s with
  | c :: s' =>
      if (c =? 101)%N || (c =? 69)%N then
        let (sign, s1) :=
          match s' with
          | d :: s'' =>
              if (d =? 43)%N || (d =? 45)%N then ([d], s'') else ([], s')
          | [] => ([], [])
          end in
        match digits s1 [] with
        | ([], _) => None
        | (ds, r) => Some (c :: sign ++ ds, r)
        end
      else Some ([], s)
  | [] => Some ([], [])
  end.

Definition parseNumber (s : jsstring) : option (jsstring * jsstring) :=
  let (sign, s1) :=
    match s with
    | c :: s' => if (c =? 45)%N then ([c], s') else ([], s)
    | [] => ([], [])
    end in
  match parseInt s1 with
  | Some (i, s2) =>
      match parseFrac s2 with
      | Some (f, s3) =>
          match parseExp s3 with
          | Some (e, s4) => Some (sign ++ i ++ f ++ e, s4)
          | None => None
          end
      | None => None
      end
  | None => None
  end.

Fixpoint stripPrefix (p s : jsstring) : option jsstring :=
  match p, s with
  | [], _ => Some s
  | x :: p', y :: s' => if (x =? y)%N then stripPrefix p' s' else None
  | _ :: _, [] => None
  end.

Definition parseLiteral (s : jsstring) : option (value * jsstring) :=
  match stripPrefix (str "true") s with
  | Some r => Some (JBool true, r)
  | None =>
      match stripPrefix (str "false") s with
      | Some r => Some (JBool false, r)
      | None =>
          match stripPrefix (str "null") s with
          | Some r => Some (JNull, r)
          | None =>
              match parseNumber s with
              | Some (n, r) => Some (JNumber n, r)
              | None => None
              end
          end
      end
  end.

(** Recursive descent over values, object members and array elements.
    Every call made with less fuel is made on a shorter input. *)
Fixpoint parseValue (fuel : nat) (s : jsstring) : option (value * jsstring) :=
  match fuel with
  | 0 => None
  | S f =>
      match skipWs s with
      | [] => None
      | c :: s1 =>
          if (c =? 123)%N then
            match skipWs s1 with
            | d :: s2 =>
                if (d =? 125)%N then Some (JObject [], s2)
                else parseMembers f s1 []
            | [] => None
            end
          else if (c =? 91)%N then
            match skipWs s1 with
            | d :: s2 =>
                if (d =? 93)%N then Some (JArray [], s2)
                else parseElements f s1 []
            | [] => None
            end
          else if (c =? 34)%N then
            match parseChars s1 [] with
            | Some (x, r) => Some (JString x, r)
            | None => None
            end
          else parseLiteral (c :: s1)
      end
  end
with parseMembers (fuel : nat) (s : jsstring) (acc : list (jsstring * value))
  : option (value * jsstring) :=
  match fuel with
  | 0 => None
  | S f =>
      match skipWs s with
      | [] => None
      | q :: s1 =>
          if (q =? 34)%N then
            match parseChars s1 [] with
            | Some (key, s2) =>
                match skipWs s2 with
                | [] => None
                | colon :: s3 =>
                    if (colon =? 58)%N then
                      match parseValue f s3 with
                      | Some (v, s4) =>
                          match skipWs s4 with
                          | [] => None
                          | d :: s5 =>
                              if (d =? 44)%N
                              then parseMembers f s5 (acc ++ [(key, v)])
                              else if (d =? 125)%N
                              then Some (JObject (acc ++ [(key, v)]), s5)
                              else None
                          end
                      | None => None
                      end
                    else None
                end
            | None => None
            end
          else None
      end
  end
with parseElements (fuel : nat) (s : jsstring) (acc : list value)
  : option (value * jsstring) :=
  match fuel with
  | 0 => None
  | S f =>
      match parseValue f s with
      | Some (v, s1) =>
          match skipWs s1 with
          | [] => None
          | d :: s2 =>
              if (d =? 44)%N then parseElements f s2 (acc ++ [v])
              else if (d =? 93)%N then Some (JArray (acc ++ [v]), s2)
              else None
          end
      | None => None
      end
  end.

(** [JSON.parse(s)]; [None] stands for the SyntaxError it throws. *)
Definition parse (s : jsstring) : option value :=
  match parseValue (S (S (length s))) s with
  | Some (v, rest) =>
      match skipWs rest with
      | [] => Some v
      | _ :: _ => None
      end
  | None => None
  end.

(** The object the parse builds keeps, of the members of one name, the
    last. *)
Fixpoint getMember (name : jsstring) (members : list (jsstring * value))
  : option value :=
  match members with
  | [] => None
  | (k, v) :: rest =>
      match getMember name rest with
      | Some v' => Some v'
      | None => if JS.eqb k name then Some v else None
      end
  end.

End Json.

Import Json.

(** ** Thrown values and completions *)

Module Host.

(** What the program observes of a thrown value [e] whose [message], when
    it has one, is a string and which [String] converts: whether it is
    [null] or [undefined], its [message] property ([None] for [undefined])
    and [String(e)].  These are the values a snippet is taken to throw;
    the values [getApiErrorMessage] can be given besides are the other
    constructors of [Failure] below. *)
Inductive Thrown : Type :=
| ThrownNull
| ThrownUndefined
| ThrownObject (message : option jsstring) (toString : jsstring).

(** [new Error(msg)] and the TypeError of a property read on [null] or
    [undefined]. *)
Definition newError (msg : jsstring) : Thrown :=
  ThrownObject (Some msg) (str "Error: " ++ msg).

Definition typeError (msg : jsstring) : Thrown :=
  ThrownObject (Some msg) (str "TypeError: " ++ msg).

Inductive Completion (A : Type) : Type :=
| Normal (a : A)
| Abrupt (e : Thrown).

Arguments Normal {A} a.
Arguments Abrupt {A} e.

(** [e?.message]: [undefined] on [null] and [undefined]. *)
Definition optMessage (e : Thrown) : option jsstring :=
  match e with
  | ThrownObject m _ => m
  | ThrownNull | ThrownUndefined => None
  end.

(** [e.message]: a TypeError on [null] and [undefined]. *)
Definition getMessage (e : Thrown) : Completion (option jsstring) :=
  match e with
  | ThrownObject m _ => Normal m
  | ThrownNull =>
      Abrupt (typeError (str "Cannot read properties of null (reading 'message')"))
  | ThrownUndefined =>
      Abrupt (typeError
                (str "Cannot read properties of undefined (reading 'message')"))
  end.

(** [String(e)] *)
Definition toStr (e : Thrown) : jsstring :=
  match e with
  | ThrownNull => str "null"
  | ThrownUndefined => str "undefined"
  | ThrownObject _ s => s
  end.

(** [m || d] where [m] is a string or [undefined]. *)
Definition optOrElse (m : option jsstring) (d : jsstring) : jsstring :=
  match m with
  | Some x => orElse x d
  | None => d
  end.

(** A value caught from a remote call, of type [any], by what
    [(error?.message || String(error)).toLowerCase()] does on it:
    - [Plain e]: the [message] of [e] is a string or is not truthy
      (absent, [undefined], [null], [0], [false]: as the left operand of
      [||] these all behave as an absent one) and [String(e)] returns
      when it is called;
    - [OddMessage raised]: [message] is truthy and is not a string (a
      number, [true], an object, an array): it has no [toLowerCase], and
      the call raises [raised], the engine's TypeError;
    - [Unprintable raised]: [message] is not truthy and [String(error)]
      raises [raised] (an object without a usable [toString]). *)
Inductive Failure : Type :=
| Plain (e : Thrown)
| OddMessage (raised : Thrown)
| Unprintable (raised : Thrown).

End Host.

Import Host.

(** ** [getApiErrorMessage] *)

Module Errors.

Definition offlineText : jsstring :=
  str "It seems you're offline. Please check your internet connection.".
Definition authText : jsstring :=
  str "There seems to be an issue with the API key. Please verify it is correct and has the required permissions.".
Definition quotaText : jsstring :=
  str "The API quota has been exceeded. Please check your usage limits.".
Definition serviceText : jsstring :=
  str "The AI service is currently experiencing issues. Please try again in a few moments.".
Definition networkText : jsstring :=
  str "A network error occurred while trying to reach the AI service. Please check your connection.".
Definition unexpectedPrefix : jsstring :=
  str "An unexpected error occurred. Details: ".
Definition noInformation : jsstring :=
  str "No additional information available.".

(** [onLine] is [navigator.onLine] at the time of the call.  The offline
    answer is given before [error] is looked at; after it the function
    returns unless the computation of [message] raises. *)
Definition getApiErrorMessage (onLine : bool) (error : Failure)
  : Completion jsstring :=
  if negb onLine then Normal offlineText
  else
    match error with
    | Plain e =>
        let message := toLowerCase (optOrElse (optMessage e) (toStr e)) in
        Normal
          (if includes (str "api key not valid") message
              || includes (str "permission denied") message
           then authText
           else if includes (str "quota") message then quotaText
           else if includes (str "500") message
                   || includes (str "503") message
                   || includes (str "server error") message
           then serviceText
           else if includes (str "fetch") message
                   || includes (str "network") message
           then networkText
           else unexpectedPrefix ++ optOrElse (optMessage e) noInformation)
    | OddMessage raised => Abrupt raised
    | Unprintable raised => Abrupt raised
    end.

End Errors.

Import Errors.

(** ** The snippet runner of [CodeBlock] *)

Module Sandbox.

(** What the runner observes of a value: [typeof v === "object"], whether
    it is [undefined], [JSON.stringify(v, null, 2)] (which can give
    [undefined] or throw) and [String(v)] (which can throw). *)
Record JsVal : Type := mkVal {
  isObject : bool;
  isUndefined : bool;
  stringified : Completion (option jsstring);
  asString : Completion jsstring
}.

(** What [console.log] is bound to: the platform's function, or the
    interceptor of a run, which appends to the array [logs] of that run and
    forwards to the function it replaced. *)
Inductive Binding : Type :=
| Native
| Interceptor (logs : nat) (original : Binding).

(** [arrays] is the store of the [logs] arrays, addressed by position;
    [printed] is what the platform's [console.log] has received. *)
Record Realm : Type := mkRealm {
  consoleLog : Binding;
  arrays : list (list jsstring);
  printed : list (list JsVal)
}.

Record BlockState : Type := mkBlock {
  output : nat;
  error : option jsstring
}.

(** The lines shown for a block: the array its [output] refers to. *)
Definition outputLines (w : Realm) (b : BlockState) : list jsstring :=
  nth (output b) (arrays w) [].

Definition alloc (w : Realm) : nat * Realm :=
  (length (arrays w),
   mkRealm (consoleLog w) (arrays w ++ [[]]) (printed w)).

Fixpoint pushAt (ref : nat) (line : jsstring) (hs : list (list jsstring))
  : list (list jsstring) :=
  match hs, ref with
  | [], _ => []
  | h :: hs', 0 => (h ++ [line]) :: hs'
  | h :: hs', S ref' => h :: pushAt ref' line hs'
  end.

Definition push (ref : nat) (line : jsstring) (w : Realm) : Realm :=
  mkRealm (consoleLog w) (pushAt ref line (arrays w)) (printed w).

Definition setConsoleLog (b : Binding) (w : Realm) : Realm :=
  mkRealm b (arrays w) (printed w).

Definition couldNotStringify : jsstring := str "Could not stringify object".

(** The callback of [args.map]; [None] is [undefined]. *)
Definition showArg (arg : JsVal) : option jsstring :=
  match (if isObject arg then stringified arg
         else match asString arg with
              | Normal x => Normal (Some x)
              | Abrupt e => Abrupt e
              end) with
  | Normal r => r
  | Abrupt _ => Some couldNotStringify
  end.

(** [Array.prototype.join]: [undefined] elements give the empty string. *)
Fixpoint joinOpt (sep : jsstring) (l : list (option jsstring)) : jsstring :=
  match l with
  | [] => []
  | [x] => match x with Some y => y | None => [] end
  | x :: rest =>
      match x with Some y => y | None => [] end ++ sep ++ joinOpt sep rest
  end.

Definition logLine (args : list JsVal) : jsstring :=
  joinOpt (str " ") (map showArg args).

(** A call of [console.log] under the binding [b]. *)
Fixpoint callLog (b : Binding) (args : list JsVal) (w : Realm) : Realm :=
  match b with
  | Native => mkRealm (consoleLog w) (arrays w) (printed w ++ [args])
  | Interceptor ref original => callLog original args (push ref (logLine args) w)
  end.

(** What [new Function(code)()] does, as far as the runner can tell: its
    calls of [console.log], in order, and then its completion (a
    SyntaxError of [new Function] is an abrupt completion with no call). *)
Record Behaviour : Type := mkBehaviour {
  logCalls : list (list JsVal);
  completion : Completion JsVal
}.

Definition runSnippet (b : Behaviour) (w : Realm) : Realm :=
  fold_left (fun w' args => callLog (consoleLog w') args w') (logCalls b) w.

(** The template literal of the result line. *)
Definition resultLine (v : JsVal) : Completion jsstring :=
  match stringified v with
  | Normal (Some x) => Normal (str "=> " ++ x)
  | Normal None => Normal (str "=> undefined")
  | Abrupt e => Abrupt e
  end.

Section Runner.

(** The evaluation of a snippet by the engine. *)
Variable engine : jsstring -> Behaviour.

(** The [try] block. *)
Definition tryBlock (code : jsstring) (logs : nat) (w : Realm)
  : Realm * Completion unit :=
  let b := engine code in
  let w1 := runSnippet b w in
  match completion b with
  | Normal result =>
      if negb (isUndefined result) then
        match resultLine result with
        | Normal line => (push logs line w1, Normal tt)
        | Abrupt e => (w1, Abrupt e)
        end
      else (w1, Normal tt)
  | Abrupt e => (w1, Abrupt e)
  end.

(** The [catch] block: [setError(e.message)]. *)
Definition catchBlock (e : Thrown) (s : BlockState)
  : BlockState * Completion unit :=
  match getMessage e with
  | Normal m => (mkBlock (output s) m, Normal tt)
  | Abrupt e' => (s, Abrupt e')
  end.

(** [handleRunCode]: the realm and the state of the block after it, and
    how the call completes for its caller. *)
Definition handleRunCode (code : jsstring) (w : Realm)
  : Realm * BlockState * Completion unit :=
  let (out0, w0) := alloc w in
  let s0 := mkBlock out0 None in
  let (logs, w1) := alloc w0 in
  let originalConsoleLog := consoleLog w1 in
  let w2 := setConsoleLog (Interceptor logs originalConsoleLog) w1 in
  let (w3, tried) := tryBlock code logs w2 in
  let (s1, caught) :=
    match tried with
    | Normal _ => (s0, Normal tt)
    | Abrupt e => catchBlock e s0
    end in
  let w4 := setConsoleLog originalConsoleLog w3 in
  (w4, mkBlock logs (error s1), caught).

End Runner.

End Sandbox.

(** ** The component [App] *)

Module App.

(** [!!SpeechRecognition] and ["speechSynthesis" in window]. *)
Record Platform : Type := mkPlatform {
  isSpeechSupported : bool;
  isTtsSupported : bool
}.

(** The state of the component.  [chat] and [ai] say whether the handle is
    not [null]; [version] counts the calls of [setMessages], each of which
    installs a new array (dependency arrays compare by identity). *)
Record State : Type := mkState {
  messages : list Message;
  version : nat;
  input : jsstring;
  isLoading : bool;
  loadingText : jsstring;
  chat : bool;
  ai : bool;
  isListening : bool;
  isTtsEnabled : bool
}.

(** Where the one call of [handleSubmit] in flight is suspended. *)
Inductive Pending : Type :=
| NoRequest
| AwaitingReply
| AwaitingImage (prompt : jsstring).

(** [speech] is the queue of [window.speechSynthesis], the utterance being
    spoken first; [capturing] says whether the recognizer runs. *)
Record World : Type := mkWorld {
  state : State;
  pending : Pending;
  speech : list jsstring;
  capturing : bool
}.

Definition speak (utterance : jsstring) (queue : list jsstring) : list jsstring :=
  queue ++ [utterance].

Definition cancel (queue : list jsstring) : list jsstring := [].

Definition processing : jsstring := str "Processing...".

Definition initialState : State :=
  mkState [] 0 [] false processing false false false false.

Definition initialWorld : World := mkWorld initialState NoRequest [] false.

Definition setMessages (f : list Message -> list Message) (s : State) : State :=
  mkState (f (messages s)) (S (version s)) (input s) (isLoading s)
          (loadingText s) (chat s) (ai s) (isListening s) (isTtsEnabled s).

Definition setInput (v : jsstring) (s : State) : State :=
  mkState (messages s) (version s) v (isLoading s)
          (loadingText s) (chat s) (ai s) (isListening s) (isTtsEnabled s).

Definition setIsLoading (v : bool) (s : State) : State :=
  mkState (messages s) (version s) (input s) v
          (loadingText s) (chat s) (ai s) (isListening s) (isTtsEnabled s).

Definition setLoadingText (v : jsstring) (s : State) : State :=
  mkState (messages s) (version s) (input s) (isLoading s)
          v (chat s) (ai s) (isListening s) (isTtsEnabled s).

Definition setChat (v : bool) (s : State) : State :=
  mkState (messages s) (version s) (input s) (isLoading s)
          (loadingText s) v (ai s) (isListening s) (isTtsEnabled s).

Definition setAi (v : bool) (s : State) : State :=
  mkState (messages s) (version s) (input s) (isLoading s)
          (loadingText s) (chat s) v (isListening s) (isTtsEnabled s).

Definition setIsListening (v : bool) (s : State) : State :=
  mkState (messages s) (version s) (input s) (isLoading s)
          (loadingText s) (chat s) (ai s) v (isTtsEnabled s).

Definition setIsTtsEnabled (f : bool -> bool) (s : State) : State :=
  mkState (messages s) (version s) (input s) (isLoading s)
          (loadingText s) (chat s) (ai s) (isListening s) (f (isTtsEnabled s)).

Definition append (m : Message) (prev : list Message) : list Message :=
  prev ++ [m].

Definition withState (s : State) (w : World) : World :=
  mkWorld s (pending w) (speech w) (capturing w).

(** *** The speech effect *)

Fixpoint join (sep : jsstring) (l : list jsstring) : jsstring :=
  match l with
  | [] => []
  | [x] => x
  | x :: rest => x ++ sep ++ join sep rest
  end.

Definition isSpokenPart (part : MessagePart) : bool :=
  match part with
  | Text content => truthy (trim content)
  | Code _ _ | Image _ _ => false
  end.

Definition partContent (part : MessagePart) : jsstring :=
  match part with
  | Text content => content
  | Code _ content => content
  | Image _ _ => []
  end.

Definition textToSpeak (lastMessage : Message) : jsstring :=
  join (str " ") (map partContent (filter isSpokenPart (parts lastMessage))).

(** The body of the effect whose dependencies are [messages],
    [isTtsEnabled] and [isTtsSupported]. *)
Definition ttsEffect (pf : Platform) (s : State) (queue : list jsstring)
  : list jsstring :=
  if negb (isTtsEnabled s) || negb (isTtsSupported pf)
     || (length (messages s) =? 0)
  then queue
  else
    match nth_error (messages s) (length (messages s) - 1) with
    | Some lastMessage =>
        match role lastMessage with
        | RoleAi =>
            let t := textToSpeak lastMessage in
            if truthy t then speak t queue else queue
        | RoleUser => queue
        end
    | None => queue
    end.

(** After a render the effect runs when one of its dependencies is not the
    one of the render before. *)
Definition depsChanged (before after : State) : bool :=
  negb (version before =? version after)
  || negb (Bool.eqb (isTtsEnabled before) (isTtsEnabled after)).

Definition runEffects (pf : Platform) (before : State) (w : World) : World :=
  if depsChanged before (state w)
  then mkWorld (state w) (pending w) (ttsEffect pf (state w) (speech w))
               (capturing w)
  else w.

(** *** Event handlers *)

Definition textMessage (r : Role) (content : jsstring) : Message :=
  mkMessage r [Text content].

Definition sorryImage : jsstring := str "Sorry, I couldn't create the image. ".
Definition sorryWrong : jsstring := str "Sorry, something went wrong. ".
Definition noImageData : jsstring := str "No image data received.".
Definition dataUrlPrefix : jsstring := str "data:image/jpeg;base64,".

(** *** Start-up *)

Definition missingKeyText : jsstring :=
  str "Configuration Error: The API key is missing. Please ensure it is set up correctly in your environment.".
Definition initFailedPrefix : jsstring :=
  str "Error: Could not initialize the AI. ".

(** How [initializeChat] goes: no key, both handles created, or a failure
    ([aiCreated] says whether [setAi] was reached before it). *)
Inductive Startup : Type :=
| MissingKey
| Ready
| Failed (aiCreated : bool) (error : Failure) (onLine : bool).

(** In the [catch], [getApiErrorMessage] is called before [setMessages]:
    when it raises, the function ends there and the log is left empty. *)
Definition initializeChat (init : Startup) (s : State) : State :=
  match init with
  | MissingKey => setMessages (fun _ => [textMessage RoleAi missingKeyText]) s
  | Ready => setChat true (setAi true s)
  | Failed aiCreated error onLine =>
      let s1 := if aiCreated then setAi true s else s in
      match getApiErrorMessage onLine error with
      | Normal friendlyMessage =>
          setMessages
            (fun _ => [textMessage RoleAi (initFailedPrefix ++ friendlyMessage)])
            s1
      | Abrupt _ => s1
      end
  end.

(** The component after its mount effects. *)
Definition mount (pf : Platform) (init : Startup) : World :=
  runEffects pf initialState
             (withState (initializeChat init initialState) initialWorld).

(** The text of [setLoadingText] in [handleImageGeneration], with the code
    units the source file has. *)
Definition generatingText (prompt : jsstring) : jsstring :=
  [240; 376; 381; 168]%N ++ str " Generating image of " ++ [34%N] ++ prompt
  ++ [34%N] ++ str "...".

(** The test of [handleSubmit] on the parsed reply.  The read of
    [image_prompt] throws on [null]; on an array, a string, a number or a
    boolean it gives [undefined].  The condition
    [x && typeof x === "string"] holds of the non-empty strings only. *)
Definition readImagePrompt (potentialJson : value) : Completion (option value) :=
  match potentialJson with
  | JNull =>
      Abrupt (typeError
                (str "Cannot read properties of null (reading 'image_prompt')"))
  | JObject members => Normal (getMember (str "image_prompt") members)
  | JBool _ | JNumber _ | JString _ | JArray _ => Normal None
  end.

Definition isPromptString (x : option value) : option jsstring :=
  match x with
  | Some (JString p) => if truthy p then Some p else None
  | _ => None
  end.

Section Handlers.

(** [JSON.parse] of the platform ([None]: it throws) and the function
    called at the place of [parseResponse]. *)
Variable JSON_parse : jsstring -> option value.
Variable parser : jsstring -> list MessagePart.

Variable pf : Platform.

(** The inner [try] of [handleSubmit] up to the call of
    [handleImageGeneration]: the prompt when [isJson] becomes [true]. *)
Definition imageDirective (responseText : jsstring) : option jsstring :=
  match JSON_parse responseText with
  | Some potentialJson =>
      match readImagePrompt potentialJson with
      | Normal x => isPromptString x
      | Abrupt _ => None
      end
  | None => None
  end.

(** [handleSubmit] up to its first [await]. *)
Definition handleSubmit (w : World) : World :=
  let s := state w in
  if negb (truthy (trim (input s))) || isLoading s || negb (chat s) then w
  else
    let capturing' := if isListening s then false else capturing w in
    let speech' := if isTtsSupported pf then cancel (speech w) else speech w in
    let userMessage := textMessage RoleUser (input s) in
    let s1 := setMessages (append userMessage) s in
    let s2 := setInput [] s1 in
    let s3 := setIsLoading true s2 in
    let s4 := setLoadingText processing s3 in
    mkWorld s4 AwaitingReply speech' capturing'.

(** [handleImageGeneration] up to its [await]; [None] when it returns at
    once. *)
Definition handleImageGeneration (prompt : jsstring) (s : State)
  : option State :=
  if negb (ai s) then None
  else Some (setLoadingText (generatingText prompt) s).

(** [handleSubmit] from the fulfilment of [chat.sendMessage] on;
    [text] is [response.text]. *)
Definition handleSubmit_fulfilled (text : option jsstring) (w : World) : World :=
  let s := state w in
  let responseText := trim (match text with Some t => t | None => [] end) in
  match imageDirective responseText with
  | Some prompt =>
      match handleImageGeneration prompt s with
      | Some s1 => mkWorld s1 (AwaitingImage prompt) (speech w) (capturing w)
      | None =>
          mkWorld (setIsLoading false s) NoRequest (speech w) (capturing w)
      end
  | None =>
      let aiMessage := mkMessage RoleAi (parser responseText) in
      let s1 := setMessages (append aiMessage) s in
      mkWorld (setIsLoading false s1) NoRequest (speech w) (capturing w)
  end.

(** [handleSubmit] from the rejection of [chat.sendMessage] on.  When
    [getApiErrorMessage] raises, the [catch] block ends before its
    [setMessages]; the [finally] still runs, and the promise of
    [handleSubmit], which nothing awaits, rejects. *)
Definition handleSubmit_rejected (error : Failure) (onLine : bool) (w : World)
  : World :=
  let s1 :=
    match getApiErrorMessage onLine error with
    | Normal friendlyMessage =>
        let errorMessage :=
          textMessage RoleAi (sorryWrong ++ friendlyMessage) in
        setMessages (append errorMessage) (state w)
    | Abrupt _ => state w
    end in
  mkWorld (setIsLoading false s1) NoRequest (speech w) (capturing w).

(** The [catch] of [handleImageGeneration].  When [getApiErrorMessage]
    raises, [handleImageGeneration] rejects before its [setMessages]; the
    rejection is caught by the inner [catch] of [handleSubmit], which
    does nothing, and [isJson] is already [true]. *)
Definition imageFailed (error : Failure) (onLine : bool) (s : State) : State :=
  match getApiErrorMessage onLine error with
  | Normal friendlyMessage =>
      let errorMessage := textMessage RoleAi (sorryImage ++ friendlyMessage) in
      setMessages (append errorMessage) s
  | Abrupt _ => s
  end.

(** [handleImageGeneration] from the fulfilment of [generateImages] on,
    then the [finally] of [handleSubmit]; [imageBytes] is
    [generatedImages[0].image.imageBytes] when all of the chain is
    there. *)
Definition handleImageGeneration_fulfilled (prompt : jsstring)
           (imageBytes : option jsstring) (onLine : bool) (w : World) : World :=
  let s := state w in
  let s1 :=
    match imageBytes with
    | Some base64ImageBytes =>
        if truthy base64ImageBytes then
          let imageUrl := dataUrlPrefix ++ base64ImageBytes in
          let imageMessage := mkMessage RoleAi [Image imageUrl prompt] in
          setMessages (append imageMessage) s
        else imageFailed (Plain (newError noImageData)) onLine s
    | None => imageFailed (Plain (newError noImageData)) onLine s
    end in
  mkWorld (setIsLoading false s1) NoRequest (speech w) (capturing w).

Definition handleImageGeneration_rejected (error : Failure) (onLine : bool)
           (w : World) : World :=
  let s1 := imageFailed error onLine (state w) in
  mkWorld (setIsLoading false s1) NoRequest (speech w) (capturing w).

Definition handleListen (w : World) : World :=
  let s := state w in
  if negb (isSpeechSupported pf) then w
  else
    let speech' := if isTtsSupported pf then cancel (speech w) else speech w in
    if isListening s then mkWorld s (pending w) speech' false
    else
      mkWorld (setIsListening true (setInput [] s)) (pending w) speech' true.

Definition handleTtsToggle (w : World) : World :=
  let s := state w in
  if negb (isTtsSupported pf) then w
  else
    let speech' := if isTtsEnabled s then cancel (speech w) else speech w in
    mkWorld (setIsTtsEnabled negb s) (pending w) speech' (capturing w).

(** What can happen to the component once it is mounted. *)
Inductive Event : Type :=
| FormSubmit
| InputChange (value : jsstring)
| ChatFulfilled (text : option jsstring)
| ChatRejected (error : Failure) (onLine : bool)
| ImagesFulfilled (imageBytes : option jsstring) (onLine : bool)
| ImagesRejected (error : Failure) (onLine : bool)
| MicClick
| RecognitionResult (transcript : jsstring)
| RecognitionEnd
| TtsToggle
| UtteranceEnd.

(** The state updates of an event, before the render they cause. *)
Definition handle (ev : Event) (w : World) : World :=
  match ev with
  | FormSubmit => handleSubmit w
  | InputChange value => withState (setInput value (state w)) w
  | ChatFulfilled text =>
      match pending w with
      | AwaitingReply => handleSubmit_fulfilled text w
      | _ => w
      end
  | ChatRejected error onLine =>
      match pending w with
      | AwaitingReply => handleSubmit_rejected error onLine w
      | _ => w
      end
  | ImagesFulfilled imageBytes onLine =>
      match pending w with
      | AwaitingImage prompt =>
          handleImageGeneration_fulfilled prompt imageBytes onLine w
      | _ => w
      end
  | ImagesRejected error onLine =>
      match pending w with
      | AwaitingImage _ => handleImageGeneration_rejected error onLine w
      | _ => w
      end
  | MicClick => handleListen w
  | RecognitionResult transcript =>
      withState (setInput transcript (state w)) w
  | RecognitionEnd =>
      mkWorld (setIsListening false (state w)) (pending w) (speech w) false
  | TtsToggle => handleTtsToggle w
  | UtteranceEnd => mkWorld (state w) (pending w) (tl (speech w)) (capturing w)
  end.

(** An event, the render and the effects after it. *)
Definition dispatch (ev : Event) (w : World) : World :=
  runEffects pf (state w) (handle ev w).

Definition run (evs : list Event) (w : World) : World :=
  fold_left (fun w' ev => dispatch ev w') evs w.

End Handlers.

End App.

(** * Properties *)

(** ** Notions the statements about [parseResponse] use *)

Module ParserSpec.

(** A fenced region with its markers: opening marker, tag, line break,
    interior, closing marker. *)
Definition refence (tag interior : jsstring) : jsstring :=
  fence ++ tag ++ [newline] ++ interior ++ fence.

(** How the [language] of a Code part relates to the tag it was read from. *)
Definition TagRule : Type := jsstring -> jsstring -> Prop.

(** The tag, lower-cased. *)
Definition lowered : TagRule :=
  fun tag language => language = toLowerCase tag.

(** The tag, lower-cased, and [plaintext] for the empty tag. *)
Definition loweredOrDefault : TagRule :=
  fun tag language =>
    language = match tag with [] => plaintext | _ :: _ => toLowerCase tag end.

(** [origin rule part seg]: [seg] is a piece of the input that [part]
    stands for: the content itself for a Text part; for a Code part a
    fenced region whose interior trims to the content and whose tag gives
    the language by [rule]. *)
Inductive origin (rule : TagRule) : MessagePart -> jsstring -> Prop :=
| origin_text : forall content, origin rule (Text content) content
| origin_code : forall tag interior language,
    rule tag language ->
    origin rule (Code language (trim interior)) (refence tag interior).

(** The parts, put back into pieces of the input in order, give [text]. *)
Definition reconstructs (rule : TagRule) (parts : list MessagePart)
           (text : jsstring) : Prop :=
  exists segs, Forall2 (origin rule) parts segs /\ concat segs = text.

(** [text] has a region the fence expression can match. *)
Definition hasFencedRegion (text : jsstring) : Prop :=
  exists pre tag interior post,
    text = pre ++ refence tag interior ++ post
    /\ forallb isWordChar tag = true /\ interior <> [].

(** The round trip of [parseResponse] on [text], for a rule on tags. *)
Definition roundTrip (rule : TagRule) (text : jsstring) : Prop :=
  parseResponseFuel (S (length text)) text = Some (parseResponse text)
  /\ parseResponse text <> []
  /\ reconstructs rule (parseResponse text) text
  /\ (~ hasFencedRegion text -> parseResponse text = [Text text]).

(** What a match of [search] from position [i] says of the subject [s]. *)
Definition matchOf (s : jsstring) (i : nat) (m : RegExpMatch) : Prop :=
  exists pre rest,
    s = pre ++ refence (group1 m) (group2 m) ++ rest
    /\ index m = i + length pre
    /\ endIndex m = index m + length (refence (group1 m) (group2 m))
    /\ forallb isWordChar (group1 m) = true
    /\ group2 m <> [].

Definition noBacktick (s : jsstring) : bool :=
  forallb (fun c => negb (c =? backtick)%N) s.

(** The markers of the empty fence of tag [tag] are in a Text part, as
    they are in the input. *)
Definition markersInText (tag : jsstring) (parts : list MessagePart) : Prop :=
  exists content,
    In (Text content) parts /\ includes (refence tag []) content = true.

Definition isCode (part : MessagePart) : bool :=
  match part with Code _ _ => true | _ => false end.

Definition isImage (part : MessagePart) : bool :=
  match part with Image _ _ => true | _ => false end.


(** The empty fence of tag [tag] between [pre] and [post] stays text: no
    Code part is emitted and its markers are in a Text part. *)
Definition emptyFenceStaysText (pre tag post : jsstring) : Prop :=
  let text := pre ++ refence tag [] ++ post in
  existsb isCode (parseResponse text) = false
  /\ markersInText tag (parseResponse text).

(** The number of backticks of a string. *)
Definition ticks (s : jsstring) : nat := count_occ N.eq_dec s backtick.


(** Inputs of the examples. *)
Definition helloReply : jsstring :=
  str "Hello ```js" ++ [newline] ++ str "console.log(1)" ++ [newline]
  ++ str "``` bye".


(** A fence with no tag. *)
Definition unlabelled : jsstring := refence [] (str "x").


(** An empty fence followed by a line and a closing marker. *)
Definition afterEmptyFence : jsstring := [newline] ++ str "let x" ++ fence.

Definition reopened : jsstring :=
  refence (str "js") [] ++ afterEmptyFence.


Arguments refence : simpl never.

End ParserSpec.

Import ParserSpec.

(** ** Notions the statements about [getApiErrorMessage] use *)

Module ErrorSpec.


















(** A rejection with [{ message: 42 }]; the text of the TypeError is the
    engine's. *)
Definition numericMessage : Failure :=
  OddMessage (typeError (str "toLowerCase is not a function")).

End ErrorSpec.

Import ErrorSpec.

(** ** Notions the statements about [App] use *)

Module AppSpec.

Import App.

Inductive Classification : Type :=
| ImageDirective (prompt : jsstring)
| NotADirective.

Section Routing.

Variable JSON_parse : jsstring -> option value.

(** The routing of a raw reply: [handleSubmit] trims it and tests it. *)
Definition route (reply : jsstring) : Classification :=
  match imageDirective JSON_parse (trim reply) with
  | Some prompt => ImageDirective prompt
  | None => NotADirective
  end.

(** The whole trimmed reply parses as an object that has a member
    [image_prompt] whose value is the string [prompt]. *)
Definition hasPromptField (reply prompt : jsstring) : Prop :=
  exists members,
    JSON_parse (trim reply) = Some (JObject members)
    /\ getMember (str "image_prompt") members = Some (JString prompt).

(** The replies routed as directives are the ones of shape [shape]. *)
Definition routesByShape (shape : jsstring -> jsstring -> Prop) : Prop :=
  forall reply prompt, route reply = ImageDirective prompt <-> shape reply prompt.

End Routing.

(** The reply [{"image_prompt": "p"}]. *)
Definition directiveReply (p : jsstring) : jsstring :=
  [123; 34]%N ++ str "image_prompt" ++ [34]%N ++ str ": " ++ [34]%N ++ p
  ++ [34; 125]%N.

Definition redFoxReply : jsstring := directiveReply (str "a red fox").
Definition emptyPromptReply : jsstring := directiveReply [].
Definition proseReply : jsstring :=
  str "here is some json: " ++ directiveReply (str "x").

(** *** Speech *)

Definition isText (part : MessagePart) : bool :=
  match part with Text _ => true | _ => false end.

(** The content of all the Text parts of a message, a space between
    them. *)
Definition allTextJoined (m : Message) : jsstring :=
  join (str " ") (map partContent (filter isText (parts m))).

(** The world the component reaches from its mount by the events [evs]. *)
Definition reached (JSON_parse : jsstring -> option value) (pf : Platform)
           (init : Startup) (evs : list Event) : World :=
  run JSON_parse parseResponse pf evs (mount pf init).

(** When an event appends an assistant message to the log of a reached
    world while speech output is on, the text [chosen] of the message, if
    not blank, is given to the synthesizer by [enqueue]. *)
Definition appendSpeaks (pf : Platform) (chosen : Message -> jsstring)
           (enqueue : jsstring -> list jsstring -> list jsstring) : Prop :=
  forall JSON_parse init evs ev m,
    let w := reached JSON_parse pf init evs in
    let w' := dispatch JSON_parse parseResponse pf ev w in
    messages (state w') = messages (state w) ++ [m] ->
    role m = RoleAi ->
    isTtsEnabled (state w) = true ->
    speech w'
    = if truthy (trim (chosen m)) then enqueue (chosen m) (speech w)
      else speech w.

Definition cancelThenSpeak (t : jsstring) (queue : list jsstring)
  : list jsstring := speak t (cancel queue).

Fixpoint lastOf (A : Type) (l : list A) : option A :=
  match l with
  | [] => None
  | [x] => Some x
  | _ :: l' => lastOf l'
  end.

(** What the last message of the log gives to say. *)
Definition lastSpoken (log : list Message) : list jsstring :=
  match lastOf log with
  | Some m =>
      match role m with
      | RoleAi => if truthy (textToSpeak m) then [textToSpeak m] else []
      | RoleUser => []
      end
  | None => []
  end.

Definition nothingSpoken (log : list Message) : list jsstring := [].

(** Switching speech output on in a reached world adds [said log] to the
    queue of the synthesizer, where [log] is the log at that time. *)
Definition toggleOnSays (pf : Platform)
           (said : list Message -> list jsstring) : Prop :=
  forall JSON_parse init evs,
    let w := reached JSON_parse pf init evs in
    isTtsEnabled (state w) = false ->
    isTtsSupported pf = true ->
    speech (dispatch JSON_parse parseResponse pf TtsToggle w)
    = speech w ++ said (messages (state w)).

(** Speech is quiet where it has to be: it is on only where the platform
    has it, nothing is queued while it is off or while a request is in
    flight (the last message is then the user's), and the queue never
    holds two utterances. *)
Definition quiet (pf : Platform) (w : World) : Prop :=
  (isTtsEnabled (state w) = true -> isTtsSupported pf = true)
  /\ (isTtsEnabled (state w) = false -> speech w = [])
  /\ (pending w <> NoRequest ->
      speech w = []
      /\ exists m, lastOf (messages (state w)) = Some m /\ role m = RoleUser)
  /\ length (speech w) <= 1.

(** What an event does to the log: nothing, or it appends one message,
    which is the user's or closes the request in flight and leaves the
    queue of the synthesizer to the effects. *)
Inductive LogStep (w w' : World) : Prop :=
| log_same :
    messages (state w') = messages (state w) -> LogStep w w'
| log_user : forall m,
    messages (state w') = messages (state w) ++ [m] ->
    role m = RoleUser -> LogStep w w'
| log_reply : forall m,
    messages (state w') = messages (state w) ++ [m] ->
    version (state w') = S (version (state w)) ->
    isTtsEnabled (state w') = isTtsEnabled (state w) ->
    pending w <> NoRequest ->
    speech w' = speech w ->
    LogStep w w'.

(** *** Submission and the log *)

(** The phase is not idle, or the text is blank, or there is no session. *)
Definition rejectsSubmit (s : State) : bool :=
  isLoading s || negb (truthy (trim (input s))) || negb (chat s).

(** A message with an Image part has that part and no other. *)
Definition imageAlone (m : Message) : bool :=
  match parts m with
  | [Image _ _] => true
  | ps => negb (existsb isImage ps)
  end.

(** Every message of the log keeps its Image part alone. *)
Definition logOk (w : World) : Prop :=
  Forall (fun m => imageAlone m = true) (messages (state w)).

Definition ttsPlatform : Platform := mkPlatform true true.

(** A reply with two code blocks and a line break between them. *)
Definition twoBlocksReply : jsstring :=
  str "one" ++ refence (str "js") (str "x") ++ [newline]
  ++ refence (str "js") (str "y") ++ str "two".

(** Speech output is switched on and a question is submitted. *)
Definition askAloud : list Event :=
  [TtsToggle; InputChange (str "show me"); FormSubmit].

(** A turn with speech output off: a question and the reply [Hello]. *)
Definition helloTurn : list Event :=
  [InputChange (str "hi"); FormSubmit; ChatFulfilled (Some (str "Hello"))].

(** A turn that ends with an image: the user asks, the reply is a
    directive and the image service answers. *)
Definition imageTurn : list Event :=
  [InputChange (str "draw a fox"); FormSubmit;
   ChatFulfilled (Some redFoxReply); ImagesFulfilled (Some (str "QUJD")) true].

(** A world with a request in flight and a draft. *)
Definition inFlight : World :=
  mkWorld (mkState [textMessage RoleUser (str "hi")] 1 (str "again") true
                   processing true true false false)
          AwaitingReply [] false.

(** A code unit that [trim] does not strip. *)
Definition nonBlank (c : N) : bool := negb (isWhiteSpace c).

End AppSpec.

Import App AppSpec.

(** ** Notions the statements about [handleRunCode] use *)

Module SandboxSpec.

Import Sandbox.

(** The lines and the error a run leaves in its block, and how the call
    completed. *)
Definition linesAfter (r : Realm * BlockState * Completion unit)
  : list jsstring :=
  outputLines (fst (fst r)) (snd (fst r)).

Definition errorAfter (r : Realm * BlockState * Completion unit)
  : option jsstring :=
  error (snd (fst r)).

Definition realmAfter (r : Realm * BlockState * Completion unit) : Realm :=
  fst (fst r).

Definition completionAfter (r : Realm * BlockState * Completion unit)
  : Completion unit :=
  snd r.

(** The line a normal completion adds. *)
Definition resultLines (c : Completion JsVal) : list jsstring :=
  match c with
  | Normal v =>
      if isUndefined v then []
      else match resultLine v with
           | Normal line => [line]
           | Abrupt _ => []
           end
  | Abrupt _ => []
  end.

(** A string value: [JSON.stringify] quotes it, [String] gives it back. *)
Definition stringVal (s : jsstring) : JsVal :=
  mkVal false false (Normal (Some ([34%N] ++ s ++ [34%N]))) (Normal s).

Definition undefinedVal : JsVal :=
  mkVal false true (Normal None) (Normal (str "undefined")).

(** Three snippets and what evaluating them does. *)
Definition snippetThrowNull : jsstring :=
  str "console.log('before'); throw null".
Definition snippetThrowError : jsstring :=
  str "console.log('before'); throw new Error('boom')".
Definition snippetLog : jsstring := str "console.log('after')".

Definition exampleEngine (code : jsstring) : Behaviour :=
  if JS.eqb code snippetThrowNull
  then mkBehaviour [[stringVal (str "before")]] (Abrupt ThrownNull)
  else if JS.eqb code snippetThrowError
  then mkBehaviour [[stringVal (str "before")]]
                   (Abrupt (newError (str "boom")))
  else if JS.eqb code snippetLog
  then mkBehaviour [[stringVal (str "after")]] (Normal undefinedVal)
  else mkBehaviour [] (Normal undefinedVal).

Definition freshRealm : Realm := mkRealm Native [] [].

Definition nullMessageError : Thrown :=
  typeError (str "Cannot read properties of null (reading 'message')").

End SandboxSpec.

Import Sandbox SandboxSpec.

(** * More of the program *)

(** ** What [App] and [CodeBlock] render *)

Module View.

Import App.

(** [isRunnable] of [CodeBlock]. *)
Definition isRunnable (language : jsstring) : bool :=
  JS.eqb language (str "javascript") || JS.eqb language (str "js").

(** The component [App] chooses for a part; a Text part whose content is
    blank gives nothing. *)
Inductive PartView : Type :=
| HtmlBlockView (code : jsstring)
| CodeBlockView (code language : jsstring) (runButton : bool)
| ImageBlockView (imageUrl prompt : jsstring)
| BubbleView (content : jsstring)
| NoView.

Definition renderPart (part : MessagePart) : PartView :=
  match part with
  | Code language content =>
      if JS.eqb language (str "html") then HtmlBlockView content
      else CodeBlockView content language (isRunnable language)
  | Image imageUrl prompt => ImageBlockView imageUrl prompt
  | Text content =>
      if truthy (trim content) then BubbleView content else NoView
  end.

(** [disabled] of the submit button and of the input field. *)
Definition submitDisabled (s : State) : bool :=
  isLoading s || negb (truthy (trim (input s))) || negb (chat s).

Definition inputDisabled (s : State) : bool := isLoading s || negb (chat s).

End View.

Import View.

(** ** Notions the further statements about [parseResponse] use *)

Module ParserMore.

(** The Text part of a piece of the input, none for the empty piece. *)
Definition textPart (s : jsstring) : list MessagePart :=
  match s with [] => [] | _ :: _ => [Text s] end.

(** The language stored for a tag. *)
Definition languageOf (tag : jsstring) : jsstring :=
  match tag with [] => plaintext | _ :: _ => toLowerCase tag end.

(** An upper-case Basic Latin letter. *)
Definition isUpper (c : N) : bool := between 65 90 c.

(** A part as [parseResponse] builds it for an input that is not empty: a
    Text part is not empty; a Code part has a language, which has no
    upper-case letter, and a content that [trim] leaves as it is. *)
Definition partOk (p : MessagePart) : Prop :=
  match p with
  | Text content => content <> []
  | Code language content =>
      language <> [] /\ existsb isUpper language = false
      /\ trim content = content
  | Image _ _ => False
  end.

(** An opening marker with nothing to close it. *)
Definition unterminated : jsstring :=
  str "see " ++ fence ++ str "js" ++ [newline] ++ str "let x = 1".

(** The first match in [twoBlocksReply]. *)
Definition firstOfTwo : RegExpMatch := mkMatch 3 (str "js") (str "x") 13.

End ParserMore.

Import ParserMore.

(** ** Notions the further statements about [App] use *)

Module TurnSpec.

Import App AppSpec.

Definition busy (p : Pending) : bool :=
  match p with NoRequest => false | _ => true end.

Definition inFlightCount (p : Pending) : nat :=
  match p with NoRequest => 0 | _ => 1 end.

Definition isReady (init : Startup) : bool :=
  match init with Ready => true | _ => false end.

(** The messages [initializeChat] puts in the log: one when the key is
    missing, one for a failure unless its description raised. *)
Definition startupMessages (init : Startup) : nat :=
  match init with
  | Ready => 0
  | MissingKey => 1
  | Failed _ error onLine =>
      match getApiErrorMessage onLine error with
      | Normal _ => 1
      | Abrupt _ => 0
      end
  end.


Definition roleEqb (a b : Role) : bool :=
  match a, b with
  | RoleUser, RoleUser | RoleAi, RoleAi => true
  | _, _ => false
  end.

Definition countRole (r : Role) (log : list Message) : nat :=
  length (filter (fun m => roleEqb (role m) r) log).

(** An Image part has a prompt and, after the data URL prefix, a
    payload. *)
Definition validImage (part : MessagePart) : Prop :=
  match part with
  | Image imageUrl prompt =>
      prompt <> []
      /\ exists bytes, bytes <> [] /\ imageUrl = dataUrlPrefix ++ bytes
  | _ => True
  end.

(** A message of the log has a part, its Image parts are valid, and the
    user's message is one Text part that is not blank. *)
Definition logEntryOk (m : Message) : Prop :=
  parts m <> []
  /\ Forall validImage (parts m)
  /\ (role m = RoleUser ->
      exists content, parts m = [Text content]
                      /\ truthy (trim content) = true).

(** What holds of the state and the request in flight in every world the
    component reaches: the session is there exactly after a start-up that
    made it; loading is shown exactly while a request is in flight, which
    needs the session; the assistant messages are at most one for each
    user message whose turn is over; an image is awaited for a prompt that
    is not empty; and the messages of the log are well formed. *)
Definition steady (init : Startup) (w : World) : Prop :=
  chat (state w) = isReady init
  /\ (chat (state w) = true -> ai (state w) = true)
  /\ isLoading (state w) = busy (pending w)
  /\ (busy (pending w) = true -> chat (state w) = true)
  /\ countRole RoleAi (messages (state w)) + inFlightCount (pending w)
     <= countRole RoleUser (messages (state w)) + startupMessages init
  /\ (forall prompt, pending w = AwaitingImage prompt -> prompt <> [])
  /\ Forall logEntryOk (messages (state w)).



(** Every utterance of the queue is what an assistant message of the log
    gives to say. *)
Definition spokenFromLog (w : World) : Prop :=
  forall u, In u (speech w) ->
            u <> []
            /\ exists m, In m (messages (state w)) /\ role m = RoleAi
                         /\ u = textToSpeak m.

(** The world after a submit that is not refused. *)
Definition submitted (pf : Platform) (w : World) : World :=
  let s := state w in
  mkWorld
    (mkState (messages s ++ [textMessage RoleUser (input s)]) (S (version s))
             [] true processing (chat s) (ai s) (isListening s)
             (isTtsEnabled s))
    AwaitingReply
    (if isTtsSupported pf then [] else speech w)
    (if isListening s then false else capturing w).

Definition hasRunButton (v : PartView) : bool :=
  match v with CodeBlockView _ _ b => b | _ => false end.

Definition isHtmlView (v : PartView) : bool :=
  match v with HtmlBlockView _ => true | _ => false end.

End TurnSpec.

Import TurnSpec.

(** ** Notions the further statements about [handleRunCode] use *)

Module RunnerMore.

Import Sandbox SandboxSpec.

(** A value whose [JSON.stringify] throws, such as an object with a
    cycle. *)
Definition cyclicVal : JsVal :=
  mkVal true false
        (Abrupt (typeError (str "Converting circular structure to JSON")))
        (Normal (str "[object Object]")).

(** A snippet that logs and returns such a value, and an engine that
    knows it. *)
Definition snippetReturnCycle : jsstring :=
  str "console.log('before'); const a = {}; a.self = a; return a".

Definition cycleEngine (code : jsstring) : Behaviour :=
  if JS.eqb code snippetReturnCycle
  then mkBehaviour [[stringVal (str "before")]] (Normal cyclicVal)
  else exampleEngine code.

End RunnerMore.

Import RunnerMore.

(** ** The matchers *)

Section MatcherFacts.

Variable R : Type.

Lemma lit_sound : forall (p s : jsstring) (k : jsstring -> option R) r,
    lit p s k = Some r -> exists s', s = p ++ s' /\ k s' = Some r.
Proof.
  induction p as [|c p IH]; simpl; intros s k r H.
  - exists s; split; [reflexivity | assumption].
  - destruct s as [|d s]; try discriminate.
    destruct (c =? d)%N eqn:E; try discriminate.
    apply N.eqb_eq in E; subst d.
    destruct (IH _ _ _ H) as (s' & -> & Hk).
    exists s'; split; [reflexivity | assumption].
Qed.

Lemma starGreedy_sound :
  forall cls (s acc : jsstring) (k : jsstring -> jsstring -> option R) r,
    starGreedy cls s acc k = Some r ->
    exists t s', s = t ++ s' /\ forallb cls t = true
                 /\ k (acc ++ t) s' = Some r.
Proof.
  intros cls; induction s as [|c s IH]; simpl; intros acc k r H.
  - exists [], []; rewrite (app_nil_r acc); repeat split; auto.
  - destruct (cls c) eqn:E.
    + destruct (starGreedy cls s (acc ++ [c]) k) as [r0|] eqn:E2.
      * injection H as ->.
        destruct (IH _ _ _ E2) as (t & s' & -> & Ht & Hk).
        exists (c :: t), s'; simpl; rewrite E, Ht.
        rewrite <- app_assoc in Hk; repeat split; auto.
      * exists [], (c :: s); rewrite (app_nil_r acc); repeat split; auto.
    + exists [], (c :: s); rewrite (app_nil_r acc); repeat split; auto.
Qed.

Lemma plusLazy_sound :
  forall cls (s acc : jsstring) (k : jsstring -> jsstring -> option R) r,
    plusLazy cls s acc k = Some r ->
    exists t s', s = t ++ s' /\ t <> [] /\ k (acc ++ t) s' = Some r.
Proof.
  intros cls; induction s as [|c s IH]; simpl; intros acc k r H.
  - discriminate.
  - destruct (cls c); try discriminate.
    destruct (k (acc ++ [c]) s) as [r0|] eqn:E.
    + injection H as ->.
      exists [c], s; repeat split; auto; discriminate.
    + destruct (IH _ _ _ H) as (t & s' & -> & _ & Hk).
      exists (c :: t), s'; repeat split; try discriminate.
      rewrite <- app_assoc in Hk; repeat split; auto.
Qed.

End MatcherFacts.

Lemma matchAt_sound : forall s g1 g2 rest,
    matchAt s = Some (g1, g2, rest) ->
    s = refence g1 g2 ++ rest /\ forallb isWordChar g1 = true /\ g2 <> [].
Proof.
  unfold matchAt; intros s g1 g2 rest H.
  apply lit_sound in H as (s1 & -> & H).
  apply starGreedy_sound in H as (t & s2 & -> & Ht & H).
  apply lit_sound in H as (s3 & -> & H).
  apply plusLazy_sound in H as (u & s4 & -> & Hu & H).
  apply lit_sound in H as (s5 & -> & H).
  simpl in H; inversion H; subst.
  unfold refence; repeat rewrite <- app_assoc; repeat split; auto.
Qed.

(** ** The search and the loop *)

Lemma refence_length : forall tag interior,
    length (refence tag interior) = 7 + length tag + length interior.
Proof.
  intros; unfold refence, fence; repeat rewrite length_app; simpl; lia.
Qed.

Lemma search_eq : forall s i,
    search s i =
    match matchAt s with
    | Some (g1, g2, rest) => Some (mkMatch i g1 g2 (i + (length s - length rest)))
    | None => match s with [] => None | _ :: s' => search s' (S i) end
    end.
Proof. destruct s; reflexivity. Qed.

Lemma search_sound : forall s i m, search s i = Some m -> matchOf s i m.
Proof.
  induction s as [|c s IH]; intros i m H; rewrite search_eq in H.
  - discriminate.
  - destruct (matchAt (c :: s)) as [[[g1 g2] rest]|] eqn:E.
    + injection H as <-.
      apply matchAt_sound in E as (E & Hw & Hg).
      assert (L : length (c :: s) = length (refence g1 g2) + length rest)
        by (rewrite E, length_app; reflexivity).
      exists [], rest; unfold index, group1, group2, endIndex.
      simpl in L; repeat split; auto; simpl; try lia.
      destruct (length rest); lia.
    + apply IH in H as (pre & rest & -> & Hi & He & Hw & Hg).
      exists (c :: pre), rest; simpl; repeat split; auto; lia.
Qed.

Lemma exec_sound : forall text lastIndex m,
    exec text lastIndex = Some m ->
    lastIndex <= length text /\ matchOf (skipn lastIndex text) lastIndex m.
Proof.
  unfold exec; intros text li m H.
  destruct (length text <? li) eqn:E; try discriminate.
  apply Nat.ltb_ge in E; split; auto using search_sound.
Qed.

Lemma substring_prefix : forall text a pre rest,
    skipn a text = pre ++ rest -> a <= length text ->
    substring text a (a + length pre) = pre.
Proof.
  intros text a pre rest H Ha; unfold substring; cbv zeta.
  assert (L : length text = a + length pre + length rest).
  { rewrite <- (firstn_skipn a text) at 1.
    rewrite length_app, length_firstn, H, length_app; lia. }
  replace (Nat.min a (length text)) with a by lia.
  replace (Nat.min (a + length pre) (length text)) with (a + length pre) by lia.
  replace (Nat.min a (a + length pre)) with a by lia.
  replace (Nat.max a (a + length pre) - a) with (length pre) by lia.
  rewrite H, firstn_app, firstn_all, Nat.sub_diag; simpl.
  apply app_nil_r.
Qed.

Lemma substring_suffix : forall text a,
    a <= length text -> substring text a (length text) = skipn a text.
Proof.
  intros text a Ha; unfold substring; cbv zeta.
  rewrite Nat.min_id.
  repeat rewrite (Nat.min_l a (length text)) by lia.
  replace (Nat.max a (length text) - a) with (length (skipn a text))
    by (rewrite length_skipn; lia).
  apply firstn_all.
Qed.

Lemma skipn_split : forall (text : jsstring) a pre rest,
    skipn a text = pre ++ rest -> skipn (a + length pre) text = rest.
Proof.
  intros text a pre rest H.
  rewrite Nat.add_comm, <- skipn_skipn, H, skipn_app, skipn_all, Nat.sub_diag.
  reflexivity.
Qed.

Lemma toLowerCase_nil : forall s, toLowerCase s = [] -> s = [].
Proof.
  destruct s as [|c s]; auto; unfold toLowerCase; simpl.
  unfold lowerUnit.
  destruct (between 65 90 c); [discriminate|].
  destruct (c =? 304)%N; [discriminate|].
  destruct (c =? 8490)%N; discriminate.
Qed.

Lemma language_rule : forall tag,
    loweredOrDefault tag (orElse (toLowerCase tag) plaintext).
Proof.
  intros tag; unfold loweredOrDefault, orElse.
  destruct tag as [|c tag]; [reflexivity|].
  destruct (toLowerCase (c :: tag)) eqn:E; [|reflexivity].
  apply toLowerCase_nil in E; discriminate.
Qed.

Lemma pushText_origin : forall rule parts text a pre rest,
    skipn a text = pre ++ rest -> a <= length text ->
    exists new segs,
      pushText parts text a (a + length pre) = parts ++ new
      /\ Forall2 (origin rule) new segs /\ concat segs = pre.
Proof.
  intros rule parts text a pre rest H Ha; unfold pushText.
  destruct (a <? a + length pre) eqn:E.
  - exists [Text (substring text a (a + length pre))], [pre].
    rewrite (@substring_prefix _ _ _ _ H Ha); simpl; rewrite app_nil_r.
    repeat split; auto; repeat constructor.
  - apply Nat.ltb_ge in E.
    exists [], []; rewrite app_nil_r; repeat split; auto.
    destruct pre; simpl in *; auto; lia.
Qed.

Lemma parseLoop_sound : forall fuel text lastIndex parts parts' last,
    lastIndex <= length text ->
    parseLoop fuel text lastIndex parts = Some (parts', last) ->
    exists new segs,
      parts' = parts ++ new
      /\ Forall2 (origin loweredOrDefault) new segs
      /\ last <= length text
      /\ skipn lastIndex text = concat segs ++ skipn last text
      /\ exec text last = None.
Proof.
  induction fuel as [|fuel IH]; intros text li parts parts' last Hli H;
    simpl in H; try discriminate.
  destruct (exec text li) as [m|] eqn:E.
  - destruct (@exec_sound _ _ _ E) as (_ & pre & rest & Hs & Hi & He & Hw & Hg).
    destruct (@pushText_origin loweredOrDefault parts text li pre
                (refence (group1 m) (group2 m) ++ rest) Hs Hli)
      as (new1 & segs1 & Hp & Ho & Hc).
    rewrite Hi, Hp in H.
    assert (Hrest : skipn (endIndex m) text = rest).
    { rewrite He, Hi.
      rewrite app_assoc in Hs. apply skipn_split in Hs.
      rewrite length_app, Nat.add_assoc in Hs; exact Hs. }
    assert (Hlen : endIndex m <= length text).
    { destruct (Nat.le_gt_cases (endIndex m) (length text)) as [L|L]; auto.
      assert (length (skipn li text) = length text - li) by apply length_skipn.
      rewrite Hs in H0; repeat rewrite length_app in H0. lia. }
    apply IH in H as (new2 & segs2 & -> & Ho2 & Hl & Hk & Hn); auto.
    exists (new1 ++ Code (orElse (toLowerCase (group1 m)) plaintext)
                         (trim (group2 m)) :: new2),
      (segs1 ++ refence (group1 m) (group2 m) :: segs2).
    repeat split; auto.
    + repeat rewrite <- app_assoc; reflexivity.
    + apply Forall2_app; auto.
      constructor; auto.
      constructor; apply language_rule.
    + rewrite Hrest in Hk.
      rewrite concat_app, concat_cons, Hs, Hc, Hk.
      repeat rewrite <- app_assoc; reflexivity.
  - injection H as <- <-.
    exists [], []; rewrite app_nil_r; repeat split; auto.
Qed.

Lemma parseLoop_total : forall fuel text lastIndex parts,
    lastIndex <= length text -> length text - lastIndex < fuel ->
    parseLoop fuel text lastIndex parts <> None.
Proof.
  induction fuel as [|fuel IH]; intros text li parts Hli Hf; [lia|].
  simpl. destruct (exec text li) as [m|] eqn:E; [|discriminate].
  destruct (@exec_sound _ _ _ E) as (_ & pre & rest & Hs & Hi & He & Hw & Hg).
  assert (L : length (skipn li text) = length text - li) by apply length_skipn.
  rewrite Hs in L; repeat rewrite length_app in L.
  rewrite refence_length in *.
  apply IH; lia.
Qed.

Lemma parseResponse_no_match : forall text,
    exec text 0 = None -> parseResponse text = [Text text].
Proof.
  intros text H; unfold parseResponse, parseResponseFuel.
  simpl parseLoop; rewrite H; unfold pushText.
  destruct text as [|c text]; [reflexivity|].
  simpl (_ <? _); cbv iota.
  rewrite substring_suffix by (simpl; lia); reflexivity.
Qed.

Lemma parseResponseFuel_sound : forall text,
    exists parts,
      parseResponseFuel (S (length text)) text = Some parts
      /\ parts <> [] /\ reconstructs loweredOrDefault parts text.
Proof.
  intros text; unfold parseResponseFuel.
  destruct (parseLoop (S (length text)) text 0 []) as [[parts last]|] eqn:E.
  - apply parseLoop_sound in E as (new & segs & -> & Ho & Hl & Hk & _);
      [|lia].
    simpl in Hk; simpl app; unfold pushText.
    destruct (last <? length text) eqn:L.
    + exists (new ++ [Text (substring text last (length text))]); split.
      * destruct new; reflexivity.
      * split; [destruct new; discriminate|].
        exists (segs ++ [skipn last text]); split.
        -- apply Forall2_app; auto; rewrite substring_suffix by auto.
           repeat constructor.
        -- rewrite concat_app; simpl; rewrite app_nil_r; auto.
    + apply Nat.ltb_ge in L.
      rewrite skipn_all2, app_nil_r in Hk by auto.
      destruct new as [|p new].
      * inversion Ho; subst segs; simpl in Hk; subst text.
        exists [Text []]; repeat split; try discriminate.
        exists [[]]; split; auto; repeat constructor.
      * exists (p :: new); repeat split; try discriminate.
        exists segs; auto.
  - exfalso; apply (@parseLoop_total (S (length text)) text 0 []); auto; lia.
Qed.

Lemma exec_region : forall text m,
    exec text 0 = Some m -> hasFencedRegion text.
Proof.
  intros text m H.
  apply exec_sound in H as (_ & pre & rest & Hs & _ & _ & Hw & Hg).
  exists pre, (group1 m), (group2 m), rest; auto.
Qed.

(** *** Completeness of the matchers *)

Section MatcherComplete.

Variable R : Type.

Lemma lit_complete : forall (p s : jsstring) (k : jsstring -> option R),
    k s <> None -> lit p (p ++ s) k <> None.
Proof.
  induction p as [|c p IH]; simpl; intros s k H; auto.
  rewrite N.eqb_refl; apply IH; exact H.
Qed.

Lemma starGreedy_complete :
  forall cls (t s acc : jsstring) (k : jsstring -> jsstring -> option R),
    forallb cls t = true -> k (acc ++ t) s <> None ->
    starGreedy cls (t ++ s) acc k <> None.
Proof.
  intros cls; induction t as [|c t IH]; simpl; intros s acc k Ht H.
  - rewrite app_nil_r in H.
    destruct s as [|d s]; simpl; auto.
    destruct (cls d); auto.
    destruct (starGreedy cls s (acc ++ [d]) k); auto; discriminate.
  - apply andb_true_iff in Ht as (Hc & Ht); rewrite Hc.
    destruct (starGreedy cls (t ++ s) (acc ++ [c]) k) eqn:E;
      [discriminate|].
    exfalso; revert E; apply IH; auto.
    rewrite <- app_assoc; exact H.
Qed.

Lemma plusLazy_complete :
  forall cls (t s acc : jsstring) (k : jsstring -> jsstring -> option R),
    t <> [] -> forallb cls t = true -> k (acc ++ t) s <> None ->
    plusLazy cls (t ++ s) acc k <> None.
Proof.
  intros cls; induction t as [|c t IH]; simpl; intros s acc k Hne Ht H.
  - elim Hne; reflexivity.
  - apply andb_true_iff in Ht as (Hc & Ht); rewrite Hc.
    destruct (k (acc ++ [c]) (t ++ s)) eqn:E; [discriminate|].
    destruct t as [|d t].
    + simpl in E; rewrite E in H; elim H; reflexivity.
    + apply IH; auto; [discriminate|].
      rewrite <- app_assoc; exact H.
Qed.

End MatcherComplete.

Lemma anyChar_all : forall s, forallb anyChar s = true.
Proof.
  induction s as [|c s IH]; simpl; auto.
  rewrite IH; unfold anyChar; destruct (isWhiteSpace c); reflexivity.
Qed.

Lemma matchAt_complete : forall tag interior post,
    forallb isWordChar tag = true -> interior <> [] ->
    matchAt (refence tag interior ++ post) <> None.
Proof.
  intros tag interior post Hw Hi; unfold matchAt, refence.
  repeat rewrite <- app_assoc.
  apply lit_complete, starGreedy_complete; auto.
  apply (@lit_complete _ [newline]).
  apply plusLazy_complete; auto using anyChar_all.
  apply lit_complete; discriminate.
Qed.

Lemma search_complete : forall pre s i,
    matchAt s <> None -> search (pre ++ s) i <> None.
Proof.
  induction pre as [|c pre IH]; intros s i H; rewrite search_eq; simpl.
  - destruct (matchAt s) as [[[g1 g2] rest]|]; [discriminate|elim H; auto].
  - destruct (matchAt (c :: pre ++ s)) as [[[g1 g2] rest]|]; [discriminate|].
    apply IH; exact H.
Qed.

(** The expression finds a match exactly in the inputs that have a fenced
    region. *)
Lemma exec_None_iff : forall text,
    exec text 0 = None <-> ~ hasFencedRegion text.
Proof.
  intros text; split.
  - intros H (pre & tag & interior & post & -> & Hw & Hi).
    unfold exec in H; simpl in H.
    revert H; apply search_complete, matchAt_complete; auto.
  - intros H; destruct (exec text 0) as [m|] eqn:E; auto.
    elim H; eauto using exec_region.
Qed.

(** C1, as amended: for every input [parseResponse] returns (its loop ends
    within its bound) a non-empty list of parts, in order, and the content
    of the Text parts with the re-fenced content of the Code parts gives
    back the input up to the trimming of each interior, the lower-casing of
    each tag and the replacement of the empty tag by [plaintext]; an input
    with no fenced region gives one Text part that holds it verbatim, also
    when it is blank. *)
Theorem parseResponse_roundTrip : forall text, roundTrip loweredOrDefault text.
Proof.
  intros text; unfold roundTrip.
  destruct (parseResponseFuel_sound text) as (parts & E & Hne & Hr).
  assert (P : parseResponse text = parts) by (unfold parseResponse; rewrite E; auto).
  rewrite P; repeat split; auto.
  intros Hno; rewrite <- P; apply parseResponse_no_match.
  destruct (exec text 0) as [m|] eqn:X; auto.
  elim Hno; eauto using exec_region.
Qed.

(** C1, as stated, fails: a fence with no tag gives the language
    [plaintext], which is not the lower-cased tag. *)
Lemma roundTrip_lowered_fails :
  parseResponse unlabelled = [Code plaintext (str "x")]
  /\ ~ roundTrip lowered unlabelled.
Proof.
  assert (P : parseResponse unlabelled = [Code plaintext (str "x")])
    by (vm_compute; reflexivity).
  split; [exact P|].
  intros (_ & _ & (segs & HF & Hc) & _).
  rewrite P in HF.
  inversion HF as [|p seg ps segs' Ho HF']; subst.
  inversion HF'; subst.
  inversion Ho as [|tag interior language Hrule]; subst.
  unfold lowered in Hrule.
  destruct tag as [|c tag]; [discriminate|].
  unfold unlabelled, refence, fence in Hc; simpl in Hc.
  injection Hc as -> _.
  vm_compute in Hrule; discriminate.
Qed.

Lemma roundTrip_witness :
  parseResponse [] = [Text []].
Proof.
  destruct (parseResponse_roundTrip []) as (_ & _ & _ & H).
  apply H.
  intros (pre & tag & interior & post & E & _).
  destruct pre; discriminate.
Defined.

Lemma startsWith_app : forall p s, startsWith p (p ++ s) = true.
Proof.
  induction p as [|c p IH]; intros s; simpl; auto.
  rewrite N.eqb_refl; apply IH.
Qed.

Lemma includes_app : forall p pre post, includes p (pre ++ p ++ post) = true.
Proof.
  induction pre as [|c pre IH]; intros post.
  - destruct (p ++ post) eqn:E; simpl; rewrite <- E, startsWith_app; auto.
  - simpl; rewrite IH; apply orb_true_r.
Qed.

Lemma exec_includes_fence : forall text m,
    exec text 0 = Some m -> includes fence text = true.
Proof.
  intros text m H.
  apply exec_sound in H as (_ & pre & rest & Hs & _).
  change (skipn 0 text) with text in Hs; rewrite Hs; unfold refence.
  rewrite <- app_assoc; apply includes_app.
Qed.

(** C8: the reply [Hello], a [js] block and [bye] gives three parts, Text,
    Code and Text, and an input with no fence marker, such as
    [just prose], gives one Text part equal to it. *)
Theorem parseResponse_examples :
  parseResponse helloReply
  = [Text (str "Hello "); Code (str "js") (str "console.log(1)");
     Text (str " bye")]
  /\ parseResponse (str "just prose") = [Text (str "just prose")]
  /\ (forall text,
         includes fence text = false -> parseResponse text = [Text text]).
Proof.
  split; [vm_compute; reflexivity|].
  split; [vm_compute; reflexivity|].
  intros text H; apply parseResponse_no_match.
  destruct (exec text 0) as [m|] eqn:E; auto.
  apply exec_includes_fence in E; congruence.
Qed.

Lemma parseResponse_examples_witness :
  includes fence (str "just prose") = false
  /\ parseResponse (str "just prose") = [Text (str "just prose")].
Proof.
  split; [reflexivity|].
  apply (proj2 (proj2 parseResponse_examples)); reflexivity.
Defined.

(** Splitting two decompositions at the first occurrence of [c]. *)
Lemma first_split : forall (c : N) a b x y,
    ~ In c a -> ~ In c b -> a ++ c :: x = b ++ c :: y -> a = b /\ x = y.
Proof.
  induction a as [|d a IH]; intros [|e b] x y Ha Hb H; simpl in *.
  - injection H as ->; auto.
  - injection H as -> _; elim Hb; auto.
  - injection H as -> _; elim Ha; auto.
  - injection H as -> H.
    destruct (IH b x y) as (-> & ->); auto.
Qed.

Lemma ticks_app : forall a b, ticks (a ++ b) = ticks a + ticks b.
Proof. intros; apply count_occ_app. Qed.

Lemma ticks_refence : forall tag interior,
    ticks (refence tag interior) = 6 + ticks tag + ticks interior.
Proof.
  intros; unfold refence; repeat rewrite ticks_app.
  change (ticks fence) with 3; change (ticks [newline]) with 0; lia.
Qed.

Lemma forallb_not_In : forall (f : N -> bool) c s,
    forallb f s = true -> f c = false -> ~ In c s.
Proof.
  intros f c s H Hc Hin.
  rewrite forallb_forall in H; apply H in Hin; congruence.
Qed.

Lemma noBacktick_ticks : forall s, noBacktick s = true -> ticks s = 0.
Proof.
  intros s H; apply count_occ_not_In.
  apply (@forallb_not_In _ _ _ H); reflexivity.
Qed.

Lemma word_ticks : forall s, forallb isWordChar s = true -> ticks s = 0.
Proof.
  intros s H; apply count_occ_not_In.
  apply (@forallb_not_In _ _ _ H); reflexivity.
Qed.

Lemma ticks_zero : forall s, ticks s = 0 -> ~ In backtick s.
Proof. intros s H; apply (count_occ_not_In N.eq_dec); exact H. Qed.

Lemma empty_fence_no_match : forall pre tag post,
    forallb isWordChar tag = true ->
    noBacktick pre = true -> noBacktick post = true ->
    exec (pre ++ refence tag [] ++ post) 0 = None.
Proof.
  intros pre tag post Hw Hpre Hpost.
  destruct (exec _ 0) as [m|] eqn:E; auto; exfalso.
  apply exec_sound in E as (_ & pre' & rest & Hs & _ & _ & Hw' & Hg).
  match type of Hs with skipn 0 ?t = _ => change (skipn 0 t) with t in Hs end.
  set (g1 := group1 m) in *; set (g2 := group2 m) in *.
  assert (C : ticks pre' + ticks g2 + ticks rest = 0).
  { apply (f_equal ticks) in Hs.
    repeat rewrite ticks_app in Hs; repeat rewrite ticks_refence in Hs.
    rewrite (@noBacktick_ticks _ Hpre), (@noBacktick_ticks _ Hpost),
      (@word_ticks _ Hw), (@word_ticks _ Hw') in Hs.
    change (ticks []) with 0 in Hs; lia. }
  unfold refence, fence in Hs; simpl in Hs.
  apply first_split in Hs as (_ & Hs);
    [ | apply ticks_zero, noBacktick_ticks; auto | apply ticks_zero; lia ].
  injection Hs as Hs.
  repeat (rewrite <- app_assoc in Hs; simpl in Hs).
  apply first_split in Hs as (_ & Hs);
    [ | apply (@forallb_not_In _ _ _ Hw); reflexivity
      | apply (@forallb_not_In _ _ _ Hw'); reflexivity ].
  destruct g2 as [|c g2]; [elim Hg; reflexivity|].
  injection Hs as <- _.
  unfold ticks in C; simpl in C; lia.
Qed.

(** C10, as amended: a fence whose opening marker, tag and line break are
    followed at once by the closing marker, in an input with no other
    backtick, is not a fenced region: [parseResponse] gives no Code part
    and one Text part that holds the input, markers included. *)
Theorem empty_fence_is_text : forall pre tag post,
    forallb isWordChar tag = true ->
    noBacktick pre = true -> noBacktick post = true ->
    parseResponse (pre ++ refence tag [] ++ post)
    = [Text (pre ++ refence tag [] ++ post)]
    /\ emptyFenceStaysText pre tag post.
Proof.
  intros pre tag post Hw Hpre Hpost.
  assert (P : parseResponse (pre ++ refence tag [] ++ post)
              = [Text (pre ++ refence tag [] ++ post)])
    by (apply parseResponse_no_match, empty_fence_no_match; auto).
  unfold emptyFenceStaysText; cbv zeta; rewrite P; repeat split; auto.
  exists (pre ++ refence tag [] ++ post); split; [left; reflexivity|].
  apply includes_app.
Qed.

Lemma empty_fence_is_text_witness :
  emptyFenceStaysText (str "see ") (str "js") (str " there").
Proof.
  apply (empty_fence_is_text (str "see ") (str "js") (str " there"));
    reflexivity.
Defined.

(** C10, as stated, fails: when a closing marker comes later, the opening
    marker of the empty fence opens a region that runs up to it, and the
    markers of the empty fence are in no Text part. *)
Lemma empty_fence_swallowed :
  parseResponse reopened
  = [Code (str "js") (fence ++ [newline] ++ str "let x")]
  /\ ~ emptyFenceStaysText [] (str "js") afterEmptyFence.
Proof.
  assert (P : parseResponse reopened
              = [Code (str "js") (fence ++ [newline] ++ str "let x")])
    by (vm_compute; reflexivity).
  split; auto.
  unfold emptyFenceStaysText; cbv zeta.
  change ([] ++ refence (str "js") [] ++ afterEmptyFence) with reopened.
  rewrite P; intros (H & _); discriminate.
Qed.

(** ** [getApiErrorMessage] *)









(** ** Reply routing *)

Section RoutingFacts.

Variable JSON_parse : jsstring -> option value.

Lemma imageDirective_shape : forall responseText prompt,
    imageDirective JSON_parse responseText = Some prompt <->
    (exists members,
        JSON_parse responseText = Some (JObject members)
        /\ getMember (str "image_prompt") members = Some (JString prompt))
    /\ prompt <> [].
Proof.
  intros responseText prompt; unfold imageDirective; split.
  - destruct (JSON_parse responseText) as [v|]; [|discriminate].
    destruct v; simpl; try discriminate.
    destruct (getMember (str "image_prompt") members) as [x|] eqn:G;
      [|discriminate].
    destruct x; simpl; try discriminate.
    destruct s as [|c s]; simpl; try discriminate.
    intros H; injection H as <-.
    split; [exists members; auto | discriminate].
  - intros ((members & -> & G) & Hne); simpl; rewrite G; simpl.
    destruct prompt; [elim Hne|]; reflexivity.
Qed.

Lemma route_directive : forall reply prompt,
    route JSON_parse reply = ImageDirective prompt <->
    imageDirective JSON_parse (trim reply) = Some prompt.
Proof.
  intros reply prompt; unfold route.
  destruct (imageDirective JSON_parse (trim reply)); split; intros H;
    try discriminate; injection H as ->; reflexivity.
Qed.

Lemma directive_skips_parser : forall parser1 parser2 pf text w prompt,
    route JSON_parse text = ImageDirective prompt ->
    dispatch JSON_parse parser1 pf (ChatFulfilled (Some text)) w
    = dispatch JSON_parse parser2 pf (ChatFulfilled (Some text)) w.
Proof.
  intros parser1 parser2 pf text w prompt H.
  apply route_directive in H.
  unfold dispatch, handle, handleSubmit_fulfilled.
  destruct (pending w); try reflexivity.
  rewrite H; reflexivity.
Qed.

End RoutingFacts.

(** C2, as amended: a raw reply is routed as [ImageDirective prompt] if and
    only if the whole trimmed reply parses as a JSON object that has a
    member [image_prompt] whose value is the non-empty string [prompt].  A
    reply that does not parse, the value [null] and directive text inside
    prose are not directives; the routing is a total function; and what is
    done with a directive does not depend on the response parser. *)
Theorem reply_routing : forall JSON_parse,
    routesByShape JSON_parse
      (fun reply prompt => hasPromptField JSON_parse reply prompt /\ prompt <> [])
    /\ (forall reply,
           JSON_parse (trim reply) = None \/ JSON_parse (trim reply) = Some JNull ->
           route JSON_parse reply = NotADirective)
    /\ (forall parser1 parser2 pf reply w prompt,
           route JSON_parse reply = ImageDirective prompt ->
           dispatch JSON_parse parser1 pf (ChatFulfilled (Some reply)) w
           = dispatch JSON_parse parser2 pf (ChatFulfilled (Some reply)) w)
    /\ route Json.parse redFoxReply = ImageDirective (str "a red fox")
    /\ route Json.parse proseReply = NotADirective.
Proof.
  intros JSON_parse; split.
  { intros reply prompt; rewrite route_directive; apply imageDirective_shape. }
  split.
  { intros reply [H|H]; unfold route, imageDirective; rewrite H; reflexivity. }
  split; [apply directive_skips_parser|].
  split; vm_compute; reflexivity.
Qed.

Lemma reply_routing_witness :
  dispatch Json.parse parseResponse ttsPlatform
           (ChatFulfilled (Some redFoxReply)) inFlight
  = dispatch Json.parse (fun _ => []) ttsPlatform
             (ChatFulfilled (Some redFoxReply)) inFlight.
Proof.
  destruct (reply_routing Json.parse) as (_ & _ & H & _).
  apply (H parseResponse (fun _ => []) ttsPlatform redFoxReply inFlight
           (str "a red fox")).
  vm_compute; reflexivity.
Defined.

(** C2, as stated, fails: a member [image_prompt] whose value is the empty
    string does not make a directive. *)
Lemma empty_prompt_not_directive :
  hasPromptField Json.parse emptyPromptReply []
  /\ route Json.parse emptyPromptReply = NotADirective
  /\ ~ routesByShape Json.parse (hasPromptField Json.parse).
Proof.
  assert (S : hasPromptField Json.parse emptyPromptReply []).
  { exists [(str "image_prompt", JString [])]; split; vm_compute; reflexivity. }
  assert (R : route Json.parse emptyPromptReply = NotADirective)
    by (vm_compute; reflexivity).
  repeat split; auto.
  intros H; apply H in S; rewrite R in S; discriminate.
Qed.

(** ** Trimming and blank strings *)

Lemma truthy_trimStart : forall s, truthy (trimStart s) = existsb nonBlank s.
Proof.
  induction s as [|c s IH]; simpl; auto.
  unfold nonBlank at 1; destruct (isWhiteSpace c); simpl; auto.
Qed.

Lemma existsb_trimStart : forall s,
    existsb nonBlank (trimStart s) = existsb nonBlank s.
Proof.
  induction s as [|c s IH]; simpl; auto.
  destruct (isWhiteSpace c) eqn:E; [|reflexivity].
  replace (nonBlank c) with false by (unfold nonBlank; rewrite E; reflexivity).
  exact IH.
Qed.

Lemma existsb_reverse : forall (f : N -> bool) s,
    existsb f (rev s) = existsb f s.
Proof.
  induction s as [|c s IH]; simpl; auto.
  rewrite existsb_app, IH; simpl.
  rewrite orb_false_r; apply orb_comm.
Qed.

Lemma truthy_rev : forall s : jsstring, truthy (rev s) = truthy s.
Proof.
  destruct s as [|c s]; simpl; auto.
  destruct (rev s); reflexivity.
Qed.

Lemma truthy_trim : forall s, truthy (trim s) = existsb nonBlank s.
Proof.
  intros s; unfold trim, trimEnd.
  rewrite truthy_rev, truthy_trimStart, existsb_reverse.
  apply existsb_trimStart.
Qed.

Lemma truthy_existsb : forall s, existsb nonBlank s = true -> truthy s = true.
Proof. destruct s; simpl; auto; discriminate. Qed.

Lemma join_nonBlank : forall sep l,
    Forall (fun x => existsb nonBlank x = true) l ->
    existsb nonBlank (join sep l) = truthy (join sep l).
Proof.
  intros sep [|x l] H; [reflexivity|].
  inversion H as [|? ? Hx Hl]; subst.
  assert (E : existsb nonBlank (join sep (x :: l)) = true).
  { destruct l; simpl; auto.
    rewrite existsb_app, Hx; reflexivity. }
  rewrite E; symmetry; apply truthy_existsb; exact E.
Qed.

Lemma textToSpeak_blank : forall m,
    truthy (trim (textToSpeak m)) = truthy (textToSpeak m).
Proof.
  intros m; rewrite truthy_trim; unfold textToSpeak.
  apply join_nonBlank.
  induction (parts m) as [|p ps IH]; simpl; [constructor|].
  destruct p as [content| |]; simpl; auto.
  destruct (truthy (trim content)) eqn:E; simpl; auto.
  constructor; auto.
  rewrite <- truthy_trim; exact E.
Qed.

(** ** The speech effect *)

Lemma lastOf_app : forall (A : Type) (l : list A) x, lastOf (l ++ [x]) = Some x.
Proof.
  induction l as [|y l IH]; intros x; [reflexivity|].
  simpl; rewrite IH; destruct (l ++ [x]) eqn:E; auto.
  destruct l; discriminate.
Qed.

Lemma nth_error_lastOf : forall (A : Type) (l : list A),
    nth_error l (length l - 1) = lastOf l.
Proof.
  induction l as [|x l IH]; [reflexivity|].
  destruct l as [|y l]; [reflexivity|].
  change (lastOf (x :: y :: l)) with (lastOf (y :: l)).
  rewrite <- IH; simpl; rewrite Nat.sub_0_r; reflexivity.
Qed.

Lemma depsChanged_same : forall s, depsChanged s s = false.
Proof.
  intros s; unfold depsChanged.
  rewrite Nat.eqb_refl, eqb_reflx; reflexivity.
Qed.

Lemma ttsEffect_last : forall pf s queue,
    isTtsEnabled s = true -> isTtsSupported pf = true ->
    ttsEffect pf s queue = queue ++ lastSpoken (messages s).
Proof.
  intros pf s queue He Hs; unfold ttsEffect, lastSpoken.
  rewrite He, Hs, nth_error_lastOf; simpl.
  destruct (messages s) as [|m l] eqn:E; simpl length; simpl Nat.eqb;
    cbv iota; [simpl; symmetry; apply app_nil_r|].
  destruct (lastOf (m :: l)) as [x|]; [|symmetry; apply app_nil_r].
  destruct (role x); [symmetry; apply app_nil_r|].
  destruct (truthy (textToSpeak x)); [reflexivity|symmetry; apply app_nil_r].
Qed.

(** C5, as amended: switching speech output on leaves the log as it is and
    speaks at most one message of it, the last, when that is an assistant
    message with a non-blank Text part; no earlier message is spoken. *)
Theorem toggle_on_says_last : forall pf,
    toggleOnSays pf lastSpoken
    /\ (forall JSON_parse parser w,
           messages (state (dispatch JSON_parse parser pf TtsToggle w))
           = messages (state w)).
Proof.
  intros pf; split.
  - intros JSON_parse init evs w He Hs.
    unfold dispatch, handle, handleTtsToggle, runEffects.
    rewrite Hs, He; simpl negb; cbv iota; simpl state.
    unfold depsChanged, setIsTtsEnabled; simpl.
    rewrite Nat.eqb_refl, He; simpl.
    rewrite ttsEffect_last by auto; reflexivity.
  - intros JSON_parse parser w.
    unfold dispatch, handle, handleTtsToggle, runEffects.
    destruct (isTtsSupported pf); simpl negb; cbv iota.
    + destruct (depsChanged _ _); reflexivity.
    + rewrite depsChanged_same; reflexivity.
Qed.

Lemma toggle_on_says_last_witness :
  speech (dispatch Json.parse parseResponse ttsPlatform TtsToggle
            (reached Json.parse ttsPlatform Ready helloTurn))
  = [str "Hello"].
Proof.
  rewrite (proj1 (toggle_on_says_last ttsPlatform) Json.parse Ready helloTurn);
    reflexivity.
Defined.

(** C5, as stated, fails: after a turn made with speech output off, the
    reply of that turn is spoken when speech output is switched on. *)
Lemma toggle_on_speaks_history :
  speech (dispatch Json.parse parseResponse ttsPlatform TtsToggle
            (reached Json.parse ttsPlatform Ready helloTurn))
  = [str "Hello"]
  /\ ~ toggleOnSays ttsPlatform nothingSpoken.
Proof.
  split; [vm_compute; reflexivity|].
  intros H.
  specialize (H Json.parse Ready helloTurn eq_refl eq_refl).
  vm_compute in H; discriminate.
Qed.

(** ** Submission *)

(** C6: in a state where a request is in flight, or the text to submit is
    blank, or there is no session, a submit changes nothing: the log, the
    phase, the draft and all the rest of the world are as before. *)
Theorem submit_rejected : forall JSON_parse parser pf w,
    rejectsSubmit (state w) = true ->
    dispatch JSON_parse parser pf FormSubmit w = w.
Proof.
  intros JSON_parse parser pf w H.
  unfold dispatch, handle, handleSubmit.
  replace (negb (truthy (trim (input (state w)))) || isLoading (state w)
           || negb (chat (state w))) with true.
  - unfold runEffects; rewrite depsChanged_same; reflexivity.
  - rewrite <- H; unfold rejectsSubmit.
    destruct (isLoading (state w)), (truthy (trim (input (state w)))),
      (chat (state w)); reflexivity.
Qed.

Lemma submit_rejected_witness :
  dispatch Json.parse parseResponse ttsPlatform FormSubmit inFlight = inFlight.
Proof.
  apply submit_rejected; reflexivity.
Defined.

(** A submit that is not rejected appends the user's message and leaves the
    idle phase. *)
Lemma submit_accepted : forall JSON_parse parser pf w,
    rejectsSubmit (state w) = false ->
    let w' := dispatch JSON_parse parser pf FormSubmit w in
    messages (state w')
    = messages (state w) ++ [textMessage RoleUser (input (state w))]
    /\ isLoading (state w') = true /\ input (state w') = []
    /\ pending w' = AwaitingReply.
Proof.
  intros JSON_parse parser pf w H.
  unfold dispatch, handle, handleSubmit.
  replace (negb (truthy (trim (input (state w)))) || isLoading (state w)
           || negb (chat (state w))) with false.
  - unfold runEffects; simpl state.
    destruct (depsChanged _ _); simpl; auto.
  - rewrite <- H; unfold rejectsSubmit.
    destruct (isLoading (state w)), (truthy (trim (input (state w)))),
      (chat (state w)); reflexivity.
Qed.

(** ** The snippet runner *)

Lemma length_pushAt : forall hs ref line,
    length (pushAt ref line hs) = length hs.
Proof.
  induction hs as [|h hs IH]; intros [|ref] line; simpl; auto.
Qed.

Lemma nth_pushAt : forall hs ref line,
    ref < length hs ->
    nth ref (pushAt ref line hs) [] = nth ref hs [] ++ [line].
Proof.
  induction hs as [|h hs IH]; intros [|ref] line H; simpl in *;
    try lia; auto.
  apply IH; lia.
Qed.

Section RunnerFacts.

Variable engine : jsstring -> Behaviour.

(** Under the interceptor of a run installed over the platform's
    function, the calls of the snippet add their lines to the array of
    the run and leave the binding alone. *)
Lemma run_intercepted : forall calls logs w,
    consoleLog w = Interceptor logs Native ->
    logs < length (arrays w) ->
    let w' := fold_left (fun w0 args => callLog (consoleLog w0) args w0)
                        calls w in
    consoleLog w' = Interceptor logs Native
    /\ length (arrays w') = length (arrays w)
    /\ nth logs (arrays w') [] = nth logs (arrays w) [] ++ map logLine calls.
Proof.
  induction calls as [|args calls IH]; intros logs w Hc Hl; cbv zeta;
    simpl fold_left.
  - repeat split; auto; symmetry; apply app_nil_r.
  - set (w1 := callLog (consoleLog w) args w).
    assert (E : w1 = mkRealm (Interceptor logs Native)
                       (pushAt logs (logLine args) (arrays w))
                       (printed w ++ [args]))
      by (unfold w1; rewrite Hc; simpl; rewrite Hc; reflexivity).
    destruct (IH logs w1) as (H1 & H2 & H3).
    + rewrite E; reflexivity.
    + rewrite E; simpl; rewrite length_pushAt; exact Hl.
    + assert (A : arrays w1 = pushAt logs (logLine args) (arrays w))
        by (rewrite E; reflexivity).
      rewrite A, length_pushAt in H2.
      rewrite A, nth_pushAt in H3 by exact Hl.
      rewrite <- app_assoc in H3.
      split; [exact H1 | split; [exact H2 | exact H3]].
Qed.

(** Whatever the snippet does, [console.log] is afterwards what it was
    before the run. *)
Lemma handleRunCode_restores : forall code w,
    consoleLog (realmAfter (handleRunCode engine code w)) = consoleLog w.
Proof.
  intros code w; unfold handleRunCode, realmAfter, alloc; simpl.
  destruct (tryBlock engine code _ _) as [w3 tried].
  destruct tried as [u|e]; [reflexivity|].
  destruct (catchBlock e _); reflexivity.
Qed.

(** The lines of a run, from a realm where [console.log] is the
    platform's: one for each call of the snippet, then the result
    line. *)
Lemma handleRunCode_lines : forall code w,
    consoleLog w = Native ->
    linesAfter (handleRunCode engine code w)
    = map logLine (logCalls (engine code))
      ++ resultLines (completion (engine code)).
Proof.
  intros code w Hn; unfold handleRunCode, linesAfter, alloc, tryBlock.
  simpl consoleLog; rewrite Hn.
  set (w2 := setConsoleLog _ _).
  destruct (@run_intercepted (logCalls (engine code))
              (length (arrays w ++ [[]])) w2) as (H1 & H2 & H3);
    [reflexivity | unfold w2; simpl; repeat rewrite length_app; simpl; lia |].
  fold (runSnippet (engine code) w2) in H1, H2, H3.
  assert (H0 : nth (length (arrays w ++ [[]])) (arrays w2) [] = []).
  { unfold w2; simpl; apply nth_middle. }
  rewrite H0 in H3; simpl in H3.
  assert (Hlt : length (arrays w ++ [[]])
                < length (arrays (runSnippet (engine code) w2))).
  { rewrite H2; unfold w2; simpl; repeat rewrite length_app; simpl; lia. }
  unfold resultLines.
  destruct (completion (engine code)) as [result|e].
  - destruct (isUndefined result); simpl negb; cbv iota.
    + unfold outputLines; simpl; rewrite H3, app_nil_r; reflexivity.
    + destruct (resultLine result) as [line|e].
      * unfold outputLines; simpl.
        rewrite nth_pushAt, H3 by exact Hlt; reflexivity.
      * destruct (catchBlock e _); unfold outputLines; simpl.
        rewrite H3, app_nil_r; reflexivity.
  - destruct (catchBlock e _); unfold outputLines; simpl.
    rewrite H3, app_nil_r; reflexivity.
Qed.

(** A thrown value that has a message is caught: the call completes
    normally and the message is the error of the block. *)
Lemma handleRunCode_catches : forall code w message text,
    completion (engine code) = Abrupt (ThrownObject message text) ->
    completionAfter (handleRunCode engine code w) = Normal tt
    /\ errorAfter (handleRunCode engine code w) = message.
Proof.
  intros code w message text H.
  unfold handleRunCode, completionAfter, errorAfter, alloc, tryBlock.
  rewrite H; simpl; auto.
Qed.

(** A thrown [null] is not: reading its message in the [catch] block
    throws, and that leaves the call. *)
Lemma handleRunCode_propagates : forall code w,
    completion (engine code) = Abrupt ThrownNull ->
    completionAfter (handleRunCode engine code w) = Abrupt nullMessageError
    /\ errorAfter (handleRunCode engine code w) = None.
Proof.
  intros code w H.
  unfold handleRunCode, completionAfter, errorAfter, alloc, tryBlock.
  rewrite H; simpl; auto.
Qed.

End RunnerFacts.

(** C7 fails for a snippet that throws [null], such as
    [console.log('before'); throw null]: the lines captured before the
    failure are kept and [console.log] is restored, but the failure is
    neither caught nor reported as the error of the block: reading its
    message in the [catch] block throws, and [handleRunCode] ends with that
    TypeError for its caller. *)
Theorem throw_null_escapes : forall engine code w,
    completion (engine code) = Abrupt ThrownNull ->
    consoleLog w = Native ->
    let r := handleRunCode engine code w in
    completionAfter r = Abrupt nullMessageError
    /\ errorAfter r = None
    /\ linesAfter r = map logLine (logCalls (engine code))
    /\ consoleLog (realmAfter r) = Native.
Proof.
  intros engine code w H Hn r; unfold r.
  destruct (handleRunCode_propagates engine code w H) as (C & E).
  rewrite handleRunCode_lines, handleRunCode_restores, H by exact Hn.
  simpl; rewrite app_nil_r; auto.
Qed.

Lemma throw_null_escapes_witness :
  completionAfter (handleRunCode exampleEngine snippetThrowNull freshRealm)
  = Abrupt nullMessageError
  /\ linesAfter (handleRunCode exampleEngine snippetThrowNull freshRealm)
     = [str "before"].
Proof.
  destruct (throw_null_escapes exampleEngine snippetThrowNull freshRealm
              eq_refl eq_refl) as (C & _ & L & _).
  split; [exact C | exact L].
Defined.

(** A run after a failing one captures its own lines only. *)
Lemma second_run_clean : forall engine code1 code2 w,
    consoleLog w = Native ->
    let w1 := realmAfter (handleRunCode engine code1 w) in
    linesAfter (handleRunCode engine code2 w1)
    = map logLine (logCalls (engine code2))
      ++ resultLines (completion (engine code2)).
Proof.
  intros engine code1 code2 w H w1.
  apply handleRunCode_lines.
  unfold w1; rewrite handleRunCode_restores; exact H.
Qed.

(** ** The conversation log *)

Lemma origin_not_image : forall rule part seg,
    origin rule part seg -> isImage part = false.
Proof. intros rule part seg H; destruct H; reflexivity. Qed.

Lemma parseResponse_no_image : forall text,
    existsb isImage (parseResponse text) = false.
Proof.
  intros text.
  destruct (parseResponseFuel_sound text) as (ps & E & _ & segs & HF & _).
  unfold parseResponse; rewrite E; clear E.
  induction HF as [|p seg ps' segs' Ho HF' IH]; simpl; auto.
  rewrite (origin_not_image Ho); exact IH.
Qed.

Lemma imageAlone_no_image : forall r ps,
    existsb isImage ps = false -> imageAlone (mkMessage r ps) = true.
Proof.
  intros r ps H; unfold imageAlone; simpl parts.
  destruct ps as [|p ps]; [reflexivity|].
  destruct p; destruct ps; simpl in *; try rewrite H; auto; discriminate.
Qed.

Lemma imageAlone_text : forall r content, imageAlone (textMessage r content) = true.
Proof. reflexivity. Qed.

Lemma logOk_append : forall s m pd q c,
    Forall (fun m => imageAlone m = true) (messages s) ->
    imageAlone m = true ->
    logOk (mkWorld (setIsLoading false (setMessages (append m) s)) pd q c).
Proof.
  intros s m pd q c H Hm; unfold logOk; simpl.
  apply Forall_app; split; auto.
Qed.

Section LogFacts.

Variable JSON_parse : jsstring -> option value.
Variable pf : Platform.

Lemma handle_logOk : forall ev w,
    logOk w -> logOk (handle JSON_parse parseResponse pf ev w).
Proof.
  intros ev w H; unfold logOk in H.
  destruct ev; simpl handle; auto.
  - unfold handleSubmit.
    destruct (negb (truthy (trim (input (state w)))) || isLoading (state w)
              || negb (chat (state w))); auto.
    unfold logOk; simpl; apply Forall_app; split; auto.
  - destruct (pending w); auto.
    unfold handleSubmit_fulfilled.
    destruct (imageDirective JSON_parse _) as [prompt|].
    + unfold handleImageGeneration; destruct (ai (state w)); exact H.
    + apply logOk_append; auto.
      apply imageAlone_no_image, parseResponse_no_image.
  - destruct (pending w); auto.
    unfold handleSubmit_rejected.
    destruct (getApiErrorMessage onLine _); [|exact H].
    apply logOk_append; auto.
  - destruct (pending w); auto.
    unfold handleImageGeneration_fulfilled, imageFailed.
    destruct imageBytes as [bytes|]; [destruct (truthy bytes)|];
      try destruct (getApiErrorMessage onLine _);
      try exact H; apply logOk_append; auto.
  - destruct (pending w); auto.
    unfold handleImageGeneration_rejected, imageFailed.
    destruct (getApiErrorMessage onLine _); [|exact H].
    apply logOk_append; auto.
  - unfold handleListen.
    destruct (isSpeechSupported pf); simpl; auto.
    destruct (isListening (state w)); exact H.
  - unfold handleTtsToggle; destruct (isTtsSupported pf); simpl; auto.
Qed.

Lemma runEffects_state : forall before w,
    state (runEffects pf before w) = state w.
Proof.
  intros before w; unfold runEffects.
  destruct (depsChanged before (state w)); reflexivity.
Qed.

Lemma dispatch_logOk : forall ev w,
    logOk w -> logOk (dispatch JSON_parse parseResponse pf ev w).
Proof.
  intros ev w H; unfold dispatch, logOk.
  rewrite runEffects_state; apply handle_logOk; exact H.
Qed.

Lemma run_logOk : forall evs w,
    logOk w -> logOk (run JSON_parse parseResponse pf evs w).
Proof.
  induction evs as [|ev evs IH]; intros w H; simpl; auto.
  apply IH, dispatch_logOk; exact H.
Qed.

End LogFacts.

Lemma mount_logOk : forall pf init, logOk (mount pf init).
Proof.
  intros pf init; unfold logOk, mount.
  rewrite runEffects_state.
  destruct init as [| |aiCreated error onLine]; simpl;
    try destruct aiCreated; try destruct (getApiErrorMessage onLine error);
    repeat constructor.
Qed.

Lemma imageAlone_alone : forall m imageUrl prompt,
    imageAlone m = true -> In (Image imageUrl prompt) (parts m) ->
    parts m = [Image imageUrl prompt].
Proof.
  intros m imageUrl prompt H Hin; unfold imageAlone in H.
  assert (X : existsb isImage (parts m) = true)
    by (apply existsb_exists; exists (Image imageUrl prompt); auto).
  destruct (parts m) as [|p ps]; [destruct Hin|].
  destruct p; try (rewrite X in H; discriminate).
  destruct ps; [|rewrite X in H; discriminate].
  destruct Hin as [<-|[]]; reflexivity.
Qed.

(** C9: in every state the component reaches, a message of the log that
    has an Image part has that part and nothing else, and the parts
    [parseResponse] gives hold no Image part. *)
Theorem image_messages_alone :
  (forall JSON_parse pf init evs m imageUrl prompt,
      In m (messages (state (reached JSON_parse pf init evs))) ->
      In (Image imageUrl prompt) (parts m) ->
      parts m = [Image imageUrl prompt])
  /\ (forall text, existsb isImage (parseResponse text) = false).
Proof.
  split; [|exact parseResponse_no_image].
  intros JSON_parse pf init evs m imageUrl prompt Hm Hin.
  apply imageAlone_alone; auto.
  assert (L : logOk (reached JSON_parse pf init evs))
    by (apply run_logOk, mount_logOk).
  unfold logOk in L; rewrite Forall_forall in L; auto.
Qed.

Lemma image_messages_alone_witness :
  parts (mkMessage RoleAi [Image (dataUrlPrefix ++ str "QUJD") (str "a red fox")])
  = [Image (dataUrlPrefix ++ str "QUJD") (str "a red fox")].
Proof.
  apply (proj1 image_messages_alone Json.parse ttsPlatform Ready imageTurn);
    vm_compute; auto.
Defined.

(** ** Speech and the turn *)

Lemma depsChanged_eq : forall a b,
    version a = version b -> isTtsEnabled a = isTtsEnabled b ->
    depsChanged a b = false.
Proof.
  intros a b V E; unfold depsChanged.
  rewrite V, E, Nat.eqb_refl, eqb_reflx; reflexivity.
Qed.

Ltac same_deps :=
  unfold runEffects; simpl state;
  rewrite depsChanged_eq by reflexivity.

Lemma ttsEffect_spec : forall pf s queue,
    ttsEffect pf s queue
    = if isTtsEnabled s && isTtsSupported pf
      then queue ++ lastSpoken (messages s) else queue.
Proof.
  intros pf s queue.
  destruct (isTtsEnabled s) eqn:He; [destruct (isTtsSupported pf) eqn:Hs|].
  - apply ttsEffect_last; auto.
  - unfold ttsEffect; rewrite He, Hs; reflexivity.
  - unfold ttsEffect; rewrite He; reflexivity.
Qed.

Lemma runEffects_speech : forall pf before w,
    speech (runEffects pf before w)
    = if depsChanged before (state w)
      then ttsEffect pf (state w) (speech w) else speech w.
Proof.
  intros; unfold runEffects; destruct (depsChanged _ _); reflexivity.
Qed.

Lemma runEffects_pending : forall pf before w,
    pending (runEffects pf before w) = pending w.
Proof.
  intros; unfold runEffects; destruct (depsChanged _ _); reflexivity.
Qed.

Lemma lastSpoken_short : forall log, length (lastSpoken log) <= 1.
Proof.
  intros log; unfold lastSpoken.
  destruct (lastOf log) as [m|]; simpl; auto.
  destruct (role m); simpl; auto.
  destruct (truthy (textToSpeak m)); simpl; auto.
Qed.

Lemma lastSpoken_user : forall log m,
    lastOf log = Some m -> role m = RoleUser -> lastSpoken log = [].
Proof. intros log m H R; unfold lastSpoken; rewrite H, R; reflexivity. Qed.

Lemma lastSpoken_append : forall log m,
    role m = RoleAi ->
    lastSpoken (log ++ [m])
    = if truthy (textToSpeak m) then [textToSpeak m] else [].
Proof.
  intros log m R; unfold lastSpoken; rewrite lastOf_app, R; reflexivity.
Qed.

(** The speech of a world after effects that find [queue] empty. *)
Lemma effects_from_silence : forall pf before w,
    speech w = [] ->
    length (speech (runEffects pf before w)) <= 1
    /\ (isTtsEnabled (state w) = false -> speech (runEffects pf before w) = [])
    /\ ((exists m, lastOf (messages (state w)) = Some m /\ role m = RoleUser) ->
        speech (runEffects pf before w) = []).
Proof.
  intros pf before w H; rewrite runEffects_speech, ttsEffect_spec, H.
  destruct (depsChanged before (state w)); simpl; [|auto].
  destruct (isTtsEnabled (state w)); simpl; [|auto].
  destruct (isTtsSupported pf); simpl; [|auto].
  repeat split.
  - apply lastSpoken_short.
  - discriminate.
  - intros (m & L & R); apply (@lastSpoken_user _ _ L R).
Qed.

Section Quiet.

Variable JSON_parse : jsstring -> option value.
Variable parser : jsstring -> list MessagePart.
Variable pf : Platform.

(** A world whose speech is silent, with the flag of [w], is quiet after
    its effects when it has no request in flight or its last message is
    the user's. *)
Lemma quiet_after : forall before w,
    (isTtsEnabled (state w) = true -> isTtsSupported pf = true) ->
    speech w = [] ->
    (pending w <> NoRequest ->
     exists m, lastOf (messages (state w)) = Some m /\ role m = RoleUser) ->
    quiet pf (runEffects pf before w).
Proof.
  intros before w Hs Hq Hp.
  destruct (@effects_from_silence pf before w Hq) as (L & E & U).
  unfold quiet; rewrite runEffects_state, runEffects_pending.
  repeat split; auto.
Qed.

Lemma quiet_unchanged : forall w w',
    quiet pf w ->
    isTtsEnabled (state w') = isTtsEnabled (state w) ->
    messages (state w') = messages (state w) ->
    pending w' = pending w ->
    speech w' = speech w \/ speech w' = [] ->
    quiet pf w'.
Proof.
  intros w w' (Q1 & Q2 & Q3 & Q4) He Hm Hp Hs.
  unfold quiet; rewrite He, Hm, Hp.
  destruct Hs as [-> | ->]; repeat split; auto; simpl; try lia.
  - apply Q3; auto.
  - apply Q3; auto.
  - apply Q3; auto.
Qed.

Lemma quiet_supported : forall w,
    quiet pf w -> isTtsSupported pf = false -> speech w = [].
Proof.
  intros w (Q1 & Q2 & _) H; apply Q2.
  destruct (isTtsEnabled (state w)); auto.
  rewrite Q1 in H; auto.
Qed.

(** The end of a request: whatever the new state, with the flag kept. *)
Lemma quiet_finish : forall before w s',
    quiet pf w -> pending w <> NoRequest ->
    isTtsEnabled s' = isTtsEnabled (state w) ->
    quiet pf (runEffects pf before
                         (mkWorld s' NoRequest (speech w) (capturing w))).
Proof.
  intros before w s' (Q1 & Q2 & Q3 & Q4) P E.
  destruct (Q3 P) as (Hq & _).
  apply quiet_after; simpl; auto.
  - rewrite E; exact Q1.
  - intros X; elim X; reflexivity.
Qed.

Lemma dispatch_quiet : forall ev w,
    quiet pf w -> quiet pf (dispatch JSON_parse parser pf ev w).
Proof.
  intros ev w Q; pose proof Q as (Q1 & Q2 & Q3 & Q4).
  unfold dispatch; destruct ev; simpl handle.
  - (* FormSubmit *)
    unfold handleSubmit.
    destruct (negb (truthy (trim (input (state w)))) || isLoading (state w)
              || negb (chat (state w))).
    + same_deps; exact Q.
    + apply quiet_after; simpl; auto.
      * destruct (isTtsSupported pf) eqn:Hsup; auto.
        apply quiet_supported; auto.
      * intros _; eexists; split; [apply lastOf_app|reflexivity].
  - (* InputChange *)
    same_deps; eapply quiet_unchanged; [exact Q | ..]; auto.
  - (* ChatFulfilled *)
    destruct (pending w) eqn:P;
      try (same_deps; exact Q).
    destruct Q3 as (Hq & U); [discriminate|].
    unfold handleSubmit_fulfilled.
    destruct (imageDirective JSON_parse _) as [prompt|].
    + unfold handleImageGeneration; destruct (ai (state w)); simpl negb;
        cbv iota.
      * apply quiet_after; simpl; auto.
      * apply quiet_finish; auto; rewrite P; discriminate.
    + apply quiet_finish; auto; rewrite P; discriminate.
  - (* ChatRejected *)
    destruct (pending w) eqn:P;
      try (same_deps; exact Q).
    unfold handleSubmit_rejected.
    apply quiet_finish; auto; [rewrite P; discriminate|].
    destruct (getApiErrorMessage onLine _); reflexivity.
  - (* ImagesFulfilled *)
    destruct (pending w) eqn:P;
      try (same_deps; exact Q).
    unfold handleImageGeneration_fulfilled.
    apply quiet_finish; auto; [rewrite P; discriminate|].
    unfold imageFailed.
    destruct imageBytes as [b|]; [destruct (truthy b)|];
      try destruct (getApiErrorMessage onLine _); reflexivity.
  - (* ImagesRejected *)
    destruct (pending w) eqn:P;
      try (same_deps; exact Q).
    unfold handleImageGeneration_rejected.
    apply quiet_finish; auto; [rewrite P; discriminate|].
    unfold imageFailed; destruct (getApiErrorMessage onLine _); reflexivity.
  - (* MicClick *)
    unfold handleListen.
    destruct (isSpeechSupported pf); simpl negb; cbv iota;
      [|same_deps; exact Q].
    destruct (isListening (state w)); same_deps;
      eapply quiet_unchanged; [exact Q | ..]; simpl; auto;
      destruct (isTtsSupported pf); auto.
  - (* RecognitionResult *)
    same_deps; eapply quiet_unchanged; [exact Q | ..]; auto.
  - (* RecognitionEnd *)
    same_deps; eapply quiet_unchanged; [exact Q | ..]; auto.
  - (* TtsToggle *)
    unfold handleTtsToggle.
    destruct (isTtsSupported pf) eqn:Hsup; simpl negb; cbv iota;
      [|same_deps; exact Q].
    apply quiet_after; simpl; auto.
    destruct (isTtsEnabled (state w)); auto.
    intros X; apply Q3; auto.
  - (* UtteranceEnd *)
    same_deps; eapply quiet_unchanged; [exact Q | reflexivity.. |].
    right; simpl.
    destruct (speech w) as [|u [|v q]]; simpl in *; auto; lia.
Qed.

End Quiet.

Lemma mount_quiet : forall pf init, quiet pf (mount pf init).
Proof.
  intros pf init; unfold mount.
  apply quiet_after; simpl; auto.
  - destruct init as [| |[|] error onLine]; simpl;
      try destruct (getApiErrorMessage onLine error); discriminate.
  - intros X; elim X; reflexivity.
Qed.

Lemma reached_quiet : forall JSON_parse pf init evs,
    quiet pf (reached JSON_parse pf init evs).
Proof.
  intros JSON_parse pf init evs; unfold reached, run.
  generalize (mount_quiet pf init); generalize (mount pf init).
  induction evs as [|ev evs IH]; intros w Q; simpl; auto.
  apply IH, dispatch_quiet; exact Q.
Qed.

Lemma handle_LogStep : forall JSON_parse parser pf ev w,
    LogStep w (handle JSON_parse parser pf ev w).
Proof.
  intros JSON_parse parser pf ev w; destruct ev; simpl handle;
    try (apply log_same; reflexivity).
  - unfold handleSubmit.
    destruct (negb (truthy (trim (input (state w)))) || isLoading (state w)
              || negb (chat (state w))); [apply log_same; reflexivity|].
    eapply log_user; reflexivity.
  - destruct (pending w) eqn:P; try (apply log_same; reflexivity).
    unfold handleSubmit_fulfilled.
    destruct (imageDirective JSON_parse _) as [prompt|].
    + unfold handleImageGeneration; destruct (ai (state w));
        apply log_same; reflexivity.
    + eapply log_reply; try reflexivity; rewrite P; discriminate.
  - destruct (pending w) eqn:P; try (apply log_same; reflexivity).
    unfold handleSubmit_rejected.
    destruct (getApiErrorMessage onLine _); [|apply log_same; reflexivity].
    eapply log_reply; try reflexivity; rewrite P; discriminate.
  - destruct (pending w) eqn:P; try (apply log_same; reflexivity).
    unfold handleImageGeneration_fulfilled, imageFailed.
    destruct imageBytes as [b|]; [destruct (truthy b)|];
      try (destruct (getApiErrorMessage onLine _);
           [|apply log_same; reflexivity]);
      (eapply log_reply; [reflexivity.. | rewrite P; discriminate | reflexivity]).
  - destruct (pending w) eqn:P; try (apply log_same; reflexivity).
    unfold handleImageGeneration_rejected, imageFailed.
    destruct (getApiErrorMessage onLine _); [|apply log_same; reflexivity].
    eapply log_reply; try reflexivity; rewrite P; discriminate.
  - unfold handleListen; destruct (isSpeechSupported pf);
      [destruct (isListening (state w))|]; apply log_same; reflexivity.
  - unfold handleTtsToggle; destruct (isTtsSupported pf);
      apply log_same; reflexivity.
Qed.

Lemma not_self_append : forall (A : Type) (l : list A) x, l <> l ++ [x].
Proof.
  intros A l x H; apply (f_equal (@length A)) in H.
  rewrite length_app in H; simpl in H; lia.
Qed.

Lemma append_from_silence : forall JSON_parse parser pf ev w m,
    quiet pf w ->
    messages (state (dispatch JSON_parse parser pf ev w))
    = messages (state w) ++ [m] ->
    role m = RoleAi ->
    isTtsEnabled (state w) = true ->
    speech w = []
    /\ speech (dispatch JSON_parse parser pf ev w)
       = if truthy (textToSpeak m) then [textToSpeak m] else [].
Proof.
  intros JSON_parse parser pf ev w m (Q1 & Q2 & Q3 & Q4) Hm Hr He.
  unfold dispatch in *; rewrite runEffects_state in Hm.
  destruct (handle_LogStep JSON_parse parser pf ev w)
    as [Same | m' Hm' Hu | m' Hm' Hv He' Hp Hs].
  - rewrite Same in Hm; elim (@not_self_append _ _ _ Hm).
  - rewrite Hm' in Hm; apply app_inj_tail in Hm as (_ & ->); congruence.
  - rewrite Hm' in Hm; apply app_inj_tail in Hm as (_ & ->).
    destruct (Q3 Hp) as (Hq & _); split; [exact Hq|].
    rewrite runEffects_speech, ttsEffect_spec, Hs, Hq, He', He, Q1 by exact He.
    replace (depsChanged _ _) with true
      by (unfold depsChanged; rewrite Hv;
          replace (version (state w) =? S (version (state w))) with false
            by (symmetry; apply Nat.eqb_neq; lia);
          reflexivity).
    rewrite Hm', lastSpoken_append by exact Hr; reflexivity.
Qed.

(** C4, as amended: when an assistant message is appended while speech
    output is on, the content of its non-blank Text parts (Code and Image
    parts are skipped) is joined with single spaces, and if the result is
    not blank it begins to be spoken with no other utterance in progress:
    the queue of the synthesizer is empty by then and never holds two
    utterances, so no two utterances overlap. *)
Theorem append_speaks : forall pf,
    appendSpeaks pf textToSpeak cancelThenSpeak
    /\ (forall JSON_parse init evs,
           length (speech (reached JSON_parse pf init evs)) <= 1).
Proof.
  intros pf; split.
  - intros JSON_parse init evs ev m w w' Hm Hr He.
    destruct (@append_from_silence JSON_parse parseResponse pf ev w m
                (reached_quiet JSON_parse pf init evs) Hm Hr He) as (Hq & E).
    fold w' in E; rewrite E, Hq, textToSpeak_blank.
    destruct (truthy (textToSpeak m)); reflexivity.
  - intros JSON_parse init evs.
    destruct (reached_quiet JSON_parse pf init evs) as (_ & _ & _ & L).
    exact L.
Qed.

Lemma append_speaks_witness :
  speech (reached Json.parse ttsPlatform Ready
            (askAloud ++ [ChatFulfilled (Some twoBlocksReply)]))
  = [str "one two"].
Proof.
  pose proof (proj1 (append_speaks ttsPlatform) Json.parse Ready askAloud
                (ChatFulfilled (Some twoBlocksReply))
                (mkMessage RoleAi (parseResponse twoBlocksReply))
                eq_refl eq_refl eq_refl) as H.
  unfold reached, run; rewrite fold_left_app.
  exact H.
Defined.

(** C4, as stated, fails: blank Text parts are left out of what is joined;
    here the line break between two code blocks. *)
Lemma blank_parts_not_spoken :
  allTextJoined (mkMessage RoleAi (parseResponse twoBlocksReply))
  = str "one " ++ [newline] ++ str " two"
  /\ speech (reached Json.parse ttsPlatform Ready
               (askAloud ++ [ChatFulfilled (Some twoBlocksReply)]))
     = [str "one two"]
  /\ ~ appendSpeaks ttsPlatform allTextJoined cancelThenSpeak.
Proof.
  split; [vm_compute; reflexivity|].
  split; [vm_compute; reflexivity|].
  intros H.
  specialize (H Json.parse Ready askAloud (ChatFulfilled (Some twoBlocksReply))
                (mkMessage RoleAi (parseResponse twoBlocksReply))
                eq_refl eq_refl eq_refl).
  vm_compute in H; discriminate.
Qed.


(** * Further properties *)

(** ** [parseResponse] *)

Lemma parseLoop_step : forall fuel text lastIndex parts m,
    exec text lastIndex = Some m ->
    parseLoop (S fuel) text lastIndex parts
    = parseLoop fuel text (endIndex m)
        (pushText parts text lastIndex (index m)
         ++ [Code (orElse (toLowerCase (group1 m)) plaintext)
                  (trim (group2 m))]).
Proof. intros fuel text li parts m H; simpl; rewrite H; reflexivity. Qed.

Lemma parseLoop_stop : forall fuel text lastIndex parts,
    exec text lastIndex = None ->
    parseLoop (S fuel) text lastIndex parts = Some (parts, lastIndex).
Proof. intros fuel text li parts H; simpl; rewrite H; reflexivity. Qed.

Lemma existsb_isCode_app : forall a b,
    existsb isCode (a ++ b) = existsb isCode a || existsb isCode b.
Proof. intros; apply existsb_app. Qed.

(** A part list that is not empty is returned as it is. *)
Lemma finish_nonempty : forall (ps : list MessagePart) d,
    ps <> [] -> match ps with [] => d | _ :: _ => ps end = ps.
Proof. intros [|p ps] d H; [elim H|]; reflexivity. Qed.

(** X1: [parseResponse] gives a Code part exactly for the inputs that have
    a fenced region: opening marker, tag of word characters, line break, an
    interior of at least one character, closing marker. *)
Theorem code_part_iff_region : forall text,
    existsb isCode (parseResponse text) = true <-> hasFencedRegion text.
Proof.
  intros text; split.
  - intros H; destruct (exec text 0) as [m|] eqn:E.
    + eapply exec_region; exact E.
    + rewrite parseResponse_no_match in H by exact E; discriminate.
  - intros H.
    destruct (exec text 0) as [m|] eqn:E;
      [|apply exec_None_iff in E; elim E; exact H].
    destruct (exec_sound _ _ E) as (_ & pre & rest & Hs & Hi & He & _).
    assert (L : length text = length pre
                              + length (refence (group1 m) (group2 m))
                              + length rest).
    { change (skipn 0 text) with text in Hs; rewrite Hs.
      repeat rewrite length_app; lia. }
    unfold parseResponse, parseResponseFuel.
    erewrite parseLoop_step by exact E.
    set (parts2 := pushText [] text 0 (index m) ++ _).
    destruct (parseLoop (length text) text (endIndex m) parts2)
      as [[parts' last]|] eqn:P.
    + apply parseLoop_sound in P as (new & segs & -> & _); [|lia].
      set (r := pushText _ _ _ _).
      assert (C : existsb isCode r = true).
      { unfold r, pushText; destruct (last <? length text);
          repeat rewrite existsb_isCode_app; unfold parts2;
          rewrite existsb_isCode_app; simpl;
          repeat rewrite orb_true_r; reflexivity. }
      destruct r; [discriminate|exact C].
    + exfalso; revert P; rewrite refence_length in *.
      apply parseLoop_total; lia.
Qed.

Lemma block_match : forall pre tag interior post m,
    forallb isWordChar tag = true ->
    noBacktick pre = true -> noBacktick interior = true ->
    exec (pre ++ refence tag interior ++ post) 0 = Some m ->
    noBacktick post = true ->
    index m = length pre /\ group1 m = tag /\ group2 m = interior
    /\ endIndex m = length pre + length (refence tag interior).
Proof.
  intros pre tag interior post m Hw Hpre Hint E Hpost.
  apply exec_sound in E as (_ & pre' & rest & Hs & Hi & He & Hw' & Hg).
  match type of Hs with skipn 0 ?t = _ => change (skipn 0 t) with t in Hs end.
  set (g1 := group1 m) in *; set (g2 := group2 m) in *.
  assert (C : ticks pre' + ticks g2 + ticks rest = 0).
  { apply (f_equal ticks) in Hs.
    repeat rewrite ticks_app in Hs; repeat rewrite ticks_refence in Hs.
    rewrite (noBacktick_ticks _ Hpre), (noBacktick_ticks _ Hpost),
      (noBacktick_ticks _ Hint), (word_ticks _ Hw), (word_ticks _ Hw') in Hs.
    lia. }
  unfold refence, fence in Hs; simpl in Hs.
  apply first_split in Hs as (<- & Hs);
    [ | apply ticks_zero, noBacktick_ticks; auto | apply ticks_zero; lia ].
  injection Hs as Hs.
  repeat (rewrite <- app_assoc in Hs; simpl in Hs).
  apply first_split in Hs as (<- & Hs);
    [ | eapply forallb_not_In; [exact Hw | reflexivity]
      | eapply forallb_not_In; [exact Hw' | reflexivity] ].
  apply first_split in Hs as (<- & _);
    [ | apply ticks_zero, noBacktick_ticks; auto | apply ticks_zero; lia ].
  rewrite He, Hi; repeat split; auto.
Qed.

Lemma no_ticks_no_match : forall text lastIndex,
    ticks (skipn lastIndex text) < 6 -> exec text lastIndex = None.
Proof.
  intros text li H.
  destruct (exec text li) as [m|] eqn:E; auto; exfalso.
  apply exec_sound in E as (_ & pre & rest & Hs & _).
  rewrite Hs in H; repeat rewrite ticks_app in H.
  rewrite ticks_refence in H; lia.
Qed.

Lemma pushText_textPart : forall parts text a pre rest,
    skipn a text = pre ++ rest -> a <= length text ->
    pushText parts text a (a + length pre) = parts ++ textPart pre.
Proof.
  intros parts text a pre rest H Ha; unfold pushText.
  destruct pre as [|c pre].
  - simpl; rewrite Nat.add_0_r, Nat.ltb_irrefl, app_nil_r; reflexivity.
  - replace (a <? a + length (c :: pre)) with true
      by (symmetry; apply Nat.ltb_lt; simpl; lia).
    erewrite substring_prefix by eauto; reflexivity.
Qed.

Lemma pushText_rest : forall parts text a,
    a <= length text ->
    pushText parts text a (length text) = parts ++ textPart (skipn a text).
Proof.
  intros parts text a Ha.
  replace (length text) with (a + length (skipn a text))
    by (rewrite length_skipn; lia).
  apply pushText_textPart with (rest := []); auto.
  rewrite app_nil_r; reflexivity.
Qed.

(** The parts of an input with one fenced block and no other backtick. *)
Lemma block_parse : forall pre tag interior post,
    forallb isWordChar tag = true -> interior <> [] ->
    noBacktick pre = true -> noBacktick interior = true ->
    noBacktick post = true ->
    parseResponse (pre ++ refence tag interior ++ post)
    = textPart pre ++ [Code (languageOf tag) (trim interior)] ++ textPart post.
Proof.
  intros pre tag interior post Hw Hi Hpre Hint Hpost.
  set (text := pre ++ refence tag interior ++ post).
  assert (L : length text = length pre + length (refence tag interior)
                            + length post)
    by (unfold text; repeat rewrite length_app; lia).
  destruct (exec text 0) as [m|] eqn:E.
  2:{ apply exec_None_iff in E; elim E.
      exists pre, tag, interior, post; auto. }
  destruct (@block_match pre tag interior post m) as (Hx & H1 & H2 & He); auto.
  assert (Hrest : skipn (endIndex m) text = post).
  { rewrite He; unfold text; rewrite app_assoc.
    rewrite <- length_app, skipn_app, skipn_all, Nat.sub_diag; reflexivity. }
  assert (N : exec text (endIndex m) = None).
  { apply no_ticks_no_match; rewrite Hrest.
    rewrite noBacktick_ticks by auto; lia. }
  unfold parseResponse, parseResponseFuel.
  rewrite refence_length in L.
  replace (length text) with (S (length text - 1)) at 1 by lia.
  erewrite parseLoop_step by exact E.
  rewrite parseLoop_stop by exact N.
  rewrite H1, H2, Hx.
  replace (pushText [] text 0 (length pre)) with ([] ++ textPart pre)
    by (symmetry;
        apply (@pushText_textPart [] text 0 pre (refence tag interior ++ post));
        [reflexivity | lia]).
  rewrite pushText_rest, Hrest by (rewrite He, refence_length; lia).
  rewrite finish_nonempty.
  - simpl app; rewrite <- app_assoc.
    replace (orElse (toLowerCase tag) plaintext) with (languageOf tag);
      [reflexivity|].
    symmetry; apply language_rule.
  - destruct (textPart pre); discriminate.
Qed.

(** X2: an input with one fenced block and no other backtick gives the
    text before it (when there is some), the Code part of the block, with
    the tag lower-cased ([plaintext] for no tag) and the interior trimmed,
    and the text after it (when there is some). *)
Theorem single_block : forall pre tag interior post,
    forallb isWordChar tag = true -> interior <> [] ->
    noBacktick pre = true -> noBacktick interior = true ->
    noBacktick post = true ->
    parseResponse (pre ++ refence tag interior ++ post)
    = textPart pre ++ [Code (languageOf tag) (trim interior)] ++ textPart post.
Proof.
  intros pre tag interior post Hw Hi Hpre Hint Hpost.
  apply block_parse; assumption.
Qed.

(** X3: an input with fewer than six backticks, such as one with an opening
    marker that nothing closes, is plain text: one Text part that holds the
    input verbatim. *)
Theorem few_backticks_plain : forall text,
    ticks text < 6 -> parseResponse text = [Text text].
Proof.
  intros text H; apply parseResponse_no_match, no_ticks_no_match; exact H.
Qed.

Lemma trimStart_fixed : forall s,
    (forall c r, s = c :: r -> isWhiteSpace c = false) -> trimStart s = s.
Proof.
  intros [|c s] H; [reflexivity|].
  simpl; rewrite (H c s eq_refl); reflexivity.
Qed.

Lemma trimStart_head : forall s c r,
    trimStart s = c :: r -> isWhiteSpace c = false.
Proof.
  induction s as [|d s IH]; simpl; intros c r H; [discriminate|].
  destruct (isWhiteSpace d) eqn:E; [eapply IH; exact H|].
  injection H as <- _; exact E.
Qed.

Lemma trimStart_suffix : forall s, exists w, s = w ++ trimStart s.
Proof.
  induction s as [|d s (w & IH)]; simpl; [exists []; reflexivity|].
  destruct (isWhiteSpace d); [|exists []; reflexivity].
  exists (d :: w); simpl; rewrite <- IH; reflexivity.
Qed.

Lemma trimStart_idem : forall s, trimStart (trimStart s) = trimStart s.
Proof.
  intros s; apply trimStart_fixed; intros c r H.
  eapply trimStart_head; exact H.
Qed.

Lemma trim_idem : forall s, trim (trim s) = trim s.
Proof.
  intros s; unfold trim, trimEnd.
  set (a := trimStart s); set (b := trimStart (rev a)).
  assert (F : trimStart (rev b) = rev b).
  { apply trimStart_fixed; intros c r H.
    destruct (trimStart_suffix (rev a)) as (w & Hw); fold b in Hw.
    apply (f_equal (@rev N)) in Hw.
    rewrite rev_involutive, rev_app_distr, H in Hw; simpl in Hw.
    eapply trimStart_head; unfold a in Hw; exact Hw. }
  rewrite F, rev_involutive; unfold b at 1; rewrite trimStart_idem.
  reflexivity.
Qed.

Lemma lowerUnit_noUpper : forall c, existsb isUpper (lowerUnit c) = false.
Proof.
  intros c; unfold lowerUnit.
  destruct (between 65 90 c) eqn:B.
  - simpl; rewrite orb_false_r; unfold isUpper, between in *.
    apply andb_true_iff in B as (B1 & B2).
    apply N.leb_le in B1.
    apply andb_false_iff; right; apply N.leb_gt; lia.
  - destruct (c =? 304)%N; [reflexivity|].
    destruct (c =? 8490)%N; [reflexivity|].
    simpl; unfold isUpper; rewrite B; reflexivity.
Qed.

Lemma toLowerCase_noUpper : forall s, existsb isUpper (toLowerCase s) = false.
Proof.
  induction s as [|c s IH]; [reflexivity|].
  unfold toLowerCase; simpl; rewrite existsb_app, lowerUnit_noUpper.
  exact IH.
Qed.

Lemma language_ok : forall tag,
    orElse (toLowerCase tag) plaintext <> []
    /\ existsb isUpper (orElse (toLowerCase tag) plaintext) = false.
Proof.
  intros tag; unfold orElse.
  destruct (toLowerCase tag) as [|c l] eqn:E; simpl truthy; cbv iota.
  - split; [discriminate|reflexivity].
  - split; [discriminate|].
    rewrite <- E; apply toLowerCase_noUpper.
Qed.

Lemma pushText_ok : forall parts text a pre rest,
    skipn a text = pre ++ rest -> a <= length text ->
    Forall partOk parts ->
    Forall partOk (pushText parts text a (a + length pre)).
Proof.
  intros parts text a pre rest H Ha Hp; unfold pushText.
  destruct (a <? a + length pre) eqn:E; auto.
  apply Nat.ltb_lt in E.
  apply Forall_app; split; auto.
  constructor; [|constructor].
  simpl; erewrite substring_prefix by eauto.
  destruct pre; simpl in *; [lia|discriminate].
Qed.

Lemma parseLoop_parts : forall fuel text lastIndex parts parts' last,
    lastIndex <= length text ->
    parseLoop fuel text lastIndex parts = Some (parts', last) ->
    Forall partOk parts -> Forall partOk parts'.
Proof.
  induction fuel as [|fuel IH]; intros text li parts parts' last Hli H Hp;
    simpl in H; try discriminate.
  destruct (exec text li) as [m|] eqn:E.
  - destruct (exec_sound _ _ E) as (_ & pre & rest & Hs & Hi & He & Hw & Hg).
    assert (Hlen : endIndex m <= length text).
    { assert (L : length (skipn li text) = length text - li)
        by apply length_skipn.
      rewrite Hs in L; repeat rewrite length_app in L; lia. }
    eapply IH; [exact Hlen | exact H |].
    apply Forall_app; split.
    + rewrite Hi; eapply pushText_ok; eauto.
    + constructor; [|constructor].
      destruct (language_ok (group1 m)) as (L1 & L2).
      simpl; repeat split; auto using trim_idem.
  - injection H as <- _; exact Hp.
Qed.

(** X4: for an input that is not empty, every Text part [parseResponse]
    gives is not empty, and every Code part has a language that is not
    empty and has no upper-case letter and a content with no white space
    at either end. *)
Theorem parts_wellformed : forall text,
    text <> [] -> Forall partOk (parseResponse text).
Proof.
  intros text Hne.
  destruct (parseResponseFuel_sound text) as (ps & E & _).
  unfold parseResponse; rewrite E.
  unfold parseResponseFuel in E.
  destruct (parseLoop (S (length text)) text 0 []) as [[parts last]|] eqn:P;
    [|discriminate].
  assert (Hp : Forall partOk parts)
    by (eapply parseLoop_parts; [| exact P | constructor]; lia).
  assert (Hl : last <= length text)
    by (apply parseLoop_sound in P as (? & ? & _ & _ & Hl & _); [exact Hl|lia]).
  injection E as <-.
  rewrite pushText_rest by exact Hl.
  destruct (skipn last text) as [|c r] eqn:S; simpl textPart.
  - rewrite app_nil_r.
    destruct parts; [|exact Hp].
    repeat constructor; exact Hne.
  - assert (Q : Forall partOk (parts ++ [Text (c :: r)])).
    { apply Forall_app; split; auto.
      repeat constructor; discriminate. }
    destruct (parts ++ [Text (c :: r)]) eqn:X; [|exact Q].
    destruct parts; discriminate.
Qed.

Section MatcherOrder.

Variable R : Type.

(** The lazy run is the shortest that lets the rest of the pattern
    match. *)
Lemma plusLazy_first :
  forall cls (s acc : jsstring) (k : jsstring -> jsstring -> option R) r,
    plusLazy cls s acc k = Some r ->
    exists t s',
      s = t ++ s' /\ k (acc ++ t) s' = Some r
      /\ forall t1 t2, t = t1 ++ t2 -> t1 <> [] -> t2 <> [] ->
                       k (acc ++ t1) (t2 ++ s') = None.
Proof.
  intros cls; induction s as [|c s IH]; simpl; intros acc k r H.
  - discriminate.
  - destruct (cls c); try discriminate.
    destruct (k (acc ++ [c]) s) as [r0|] eqn:E.
    + injection H as ->.
      exists [c], s; repeat split; auto.
      intros [|d [|e t1]] t2 Ht H1 H2; try (elim H1; reflexivity);
        simpl in Ht.
      * injection Ht as _ Ht; subst t2; elim H2; reflexivity.
      * injection Ht as _ Ht; discriminate.
    + destruct (IH _ _ _ H) as (t & s' & -> & Hk & Hmin).
      exists (c :: t), s'; rewrite <- app_assoc in Hk; repeat split; auto.
      intros [|d t1] t2 Ht H1 H2; [elim H1; reflexivity|].
      simpl in Ht; injection Ht as <- ->.
      destruct t1 as [|e t1]; [exact E|].
      specialize (Hmin (e :: t1) t2 eq_refl).
      rewrite <- app_assoc in Hmin; apply Hmin; auto; discriminate.
Qed.

Lemma lit_fails : forall (p s : jsstring) (f : jsstring -> R),
    lit p s (fun s' => Some (f s')) = None -> startsWith p s = false.
Proof.
  induction p as [|c p IH]; simpl; intros s f H; [discriminate|].
  destruct s as [|d s]; auto.
  destruct (c =? d)%N; simpl; auto.
  eapply IH; exact H.
Qed.

End MatcherOrder.

Lemma matchAt_lazy : forall s g1 g2 rest,
    matchAt s = Some (g1, g2, rest) ->
    forall t1 t2, g2 = t1 ++ t2 -> t1 <> [] -> t2 <> [] ->
                  startsWith fence (t2 ++ fence ++ rest) = false.
Proof.
  unfold matchAt; intros s g1 g2 rest H.
  apply lit_sound in H as (s1 & -> & H).
  apply starGreedy_sound in H as (t & s2 & -> & Ht & H).
  apply lit_sound in H as (s3 & -> & H).
  apply plusLazy_first in H as (u & s4 & -> & H & Hmin).
  apply lit_sound in H as (s5 & -> & H).
  simpl in H; injection H as <- <- <-.
  intros t1 t2 -> H1 H2.
  eapply lit_fails; apply (Hmin t1 t2 eq_refl H1 H2).
Qed.

Lemma search_first : forall s i m,
    search s i = Some m ->
    forall j, i + j < index m -> matchAt (skipn j s) = None.
Proof.
  induction s as [|c s IH]; intros i m H j Hj; rewrite search_eq in H.
  - discriminate.
  - destruct (matchAt (c :: s)) as [[[g1 g2] rest]|] eqn:E.
    + injection H as <-; simpl in Hj; lia.
    + destruct j as [|j]; [exact E|].
      simpl; eapply IH; [exact H|lia].
Qed.

Lemma search_rest : forall s i m,
    search s i = Some m ->
    i <= index m
    /\ exists rest,
        matchAt (skipn (index m - i) s) = Some (group1 m, group2 m, rest).
Proof.
  induction s as [|c s IH]; intros i m H; rewrite search_eq in H.
  - discriminate.
  - destruct (matchAt (c :: s)) as [[[g1 g2] rest]|] eqn:E.
    + injection H as <-; unfold index, group1, group2.
      rewrite Nat.sub_diag; split; [lia|].
      exists rest; exact E.
    + destruct (IH _ _ H) as (L & rest & IH').
      split; [lia|]; exists rest.
      replace (index m - i) with (S (index m - S i)) by lia.
      exact IH'.
Qed.

Lemma app_eq_shorter : forall (a b c d : jsstring),
    a ++ b = c ++ d -> length a < length c ->
    exists u, u <> [] /\ c = a ++ u /\ b = u ++ d.
Proof.
  induction a as [|x a IH]; intros b [|y c] d H L; simpl in *; try lia.
  - exists (y :: c); repeat split; auto; discriminate.
  - injection H as <- H.
    destruct (IH b c d H) as (u & Hu & -> & ->); [lia|].
    exists u; auto.
Qed.

(** X5: the match [exec] finds first is leftmost and shortest: no fenced
    region of the input starts before it, and a region that starts where
    it starts has the same tag and an interior at least as long. *)
Theorem first_block_leftmost_shortest : forall text m pre tag interior post,
    exec text 0 = Some m ->
    text = pre ++ refence tag interior ++ post ->
    forallb isWordChar tag = true -> interior <> [] ->
    index m <= length pre
    /\ (index m = length pre ->
        group1 m = tag /\ length (group2 m) <= length interior).
Proof.
  intros text m pre tag interior post E Ht Hw Hi.
  unfold exec in E; simpl in E.
  pose proof (search_first _ _ E) as First.
  destruct (search_rest _ _ E) as (_ & rest & Rest).
  rewrite Nat.sub_0_r in Rest.
  assert (At : skipn (length pre) text = refence tag interior ++ post)
    by (rewrite Ht, skipn_app, skipn_all, Nat.sub_diag; reflexivity).
  split.
  - destruct (Nat.le_gt_cases (index m) (length pre)) as [L|L]; auto.
    exfalso; specialize (First (length pre) L).
    rewrite At in First; revert First.
    apply matchAt_complete; auto.
  - intros Hx; rewrite Hx, At in Rest.
    pose proof (matchAt_lazy _ Rest) as Lazy.
    apply matchAt_sound in Rest as (Eq & Hw' & Hg).
    unfold refence, fence in Eq; simpl in Eq; injection Eq as Eq.
    repeat (rewrite <- app_assoc in Eq; simpl in Eq).
    apply first_split in Eq as (-> & Eq);
      [ | eapply forallb_not_In; [exact Hw | reflexivity]
        | eapply forallb_not_In; [exact Hw' | reflexivity] ].
    split; [reflexivity|].
    destruct (Nat.le_gt_cases (length (group2 m)) (length interior))
      as [L|L]; auto.
    exfalso.
    repeat rewrite <- app_assoc in Eq.
    destruct (app_eq_shorter _ _ _ _ Eq L) as (u & Hu & Hg2 & Hf).
    specialize (Lazy interior u Hg2 Hi Hu).
    repeat rewrite <- app_assoc in Lazy; simpl in Lazy.
    simpl in Hf; rewrite <- Hf in Lazy.
    simpl in Lazy; unfold backtick in Lazy; simpl in Lazy; discriminate.
Qed.

Lemma single_block_witness :
  parseResponse (str "Hello " ++ refence (str "JS") (str " f() ") ++ str " bye")
  = [Text (str "Hello "); Code (str "js") (str "f()"); Text (str " bye")].
Proof.
  apply (@single_block (str "Hello ") (str "JS") (str " f() ") (str " bye"));
    try reflexivity; discriminate.
Defined.

Lemma few_backticks_plain_witness :
  parseResponse unterminated = [Text unterminated].
Proof.
  apply few_backticks_plain; vm_compute; lia.
Defined.

Lemma parts_wellformed_witness : Forall partOk (parseResponse twoBlocksReply).
Proof.
  apply parts_wellformed; discriminate.
Defined.

Lemma first_block_leftmost_shortest_witness :
  index firstOfTwo <= length (str "one")
  /\ (index firstOfTwo = length (str "one") ->
      group1 firstOfTwo = str "js"
      /\ length (group2 firstOfTwo) <= length (str "x")).
Proof.
  apply (@first_block_leftmost_shortest twoBlocksReply firstOfTwo (str "one")
           (str "js") (str "x")
           ([newline] ++ refence (str "js") (str "y") ++ str "two"));
    try reflexivity; discriminate.
Defined.

(** ** The turn, the log and speech *)

Lemma countRole_append : forall r log m,
    countRole r (log ++ [m])
    = countRole r log + (if roleEqb (role m) r then 1 else 0).
Proof.
  intros r log m; unfold countRole.
  rewrite filter_app, length_app; simpl.
  destruct (roleEqb (role m) r); reflexivity.
Qed.

Lemma parseResponse_valid : forall text, Forall validImage (parseResponse text).
Proof.
  intros text; pose proof (parseResponse_no_image text) as H.
  induction (parseResponse text) as [|p ps IH]; constructor.
  - destruct p; simpl in *; auto; discriminate.
  - apply IH; simpl in H; apply orb_false_iff in H as (_ & H); exact H.
Qed.

Lemma parseResponse_nonempty : forall text, parseResponse text <> [].
Proof.
  intros text.
  destruct (parseResponseFuel_sound text) as (ps & E & Hne & _).
  unfold parseResponse; rewrite E; exact Hne.
Qed.

Lemma textMessage_ok : forall content,
    logEntryOk (textMessage RoleAi content).
Proof.
  intros content; unfold logEntryOk; simpl; repeat split;
    try discriminate; repeat constructor.
Qed.

Lemma imageDirective_nonempty : forall JSON_parse text prompt,
    imageDirective JSON_parse text = Some prompt -> prompt <> [].
Proof.
  intros JSON_parse text prompt H.
  apply imageDirective_shape in H as (_ & H); exact H.
Qed.

Lemma steady_same : forall init w w',
    steady init w ->
    messages (state w') = messages (state w) ->
    isLoading (state w') = isLoading (state w) ->
    chat (state w') = chat (state w) ->
    ai (state w') = ai (state w) ->
    pending w' = pending w ->
    steady init w'.
Proof.
  intros init w w' H Hm Hl Hc Ha Hp; unfold steady.
  rewrite Hm, Hl, Hc, Ha, Hp; exact H.
Qed.

Section Steady.

Variable JSON_parse : jsstring -> option value.
Variable pf : Platform.
Variable init : Startup.

Lemma mount_steady : steady init (mount pf init).
Proof.
  unfold steady, mount; rewrite runEffects_state, runEffects_pending.
  destruct init as [| |[|] error onLine]; simpl;
    try destruct (getApiErrorMessage onLine error); simpl;
    repeat split; auto; try discriminate; repeat constructor;
    try apply textMessage_ok.
Qed.

(** The end of a request with one assistant message appended. *)
Lemma steady_reply : forall w m q c,
    steady init w -> busy (pending w) = true ->
    role m = RoleAi -> logEntryOk m ->
    steady init
      (mkWorld (setIsLoading false (setMessages (append m) (state w)))
               NoRequest q c).
Proof.
  intros w m q c (S1 & S2 & S3 & S4 & S5 & S6 & S7) B R V.
  unfold steady; simpl; unfold append.
  repeat rewrite countRole_append; rewrite R; simpl.
  repeat split; auto; try discriminate.
  - destruct (pending w); simpl in *; try discriminate; lia.
  - apply Forall_app; split; auto.
Qed.

(** The end of a request with nothing appended. *)
Lemma steady_dropped : forall w q c,
    steady init w ->
    steady init (mkWorld (setIsLoading false (state w)) NoRequest q c).
Proof.
  intros w q c (S1 & S2 & S3 & S4 & S5 & S6 & S7).
  unfold steady; simpl.
  repeat split; auto; try discriminate.
  destruct (pending w); simpl in *; lia.
Qed.

Lemma handle_steady : forall ev w,
    steady init w -> steady init (handle JSON_parse parseResponse pf ev w).
Proof.
  intros ev w H; pose proof H as (S1 & S2 & S3 & S4 & S5 & S6 & S7).
  destruct ev; simpl handle;
    try (eapply steady_same; [exact H | reflexivity ..]).
  - (* FormSubmit *)
    unfold handleSubmit.
    destruct (negb (truthy (trim (input (state w)))) || isLoading (state w)
              || negb (chat (state w))) eqn:G; [exact H|].
    apply orb_false_iff in G as (G & Gc).
    apply orb_false_iff in G as (Gi & Gl).
    apply negb_false_iff in Gc.
    rewrite Gl in S3.
    unfold steady; simpl; unfold append.
    repeat rewrite countRole_append; simpl.
    repeat split; auto; try discriminate.
    + destruct (pending w); simpl in *; try discriminate; lia.
    + apply Forall_app; split; auto; constructor; [|constructor].
      unfold logEntryOk; simpl; repeat split; try discriminate;
        repeat constructor.
      intros _; exists (input (state w)); split; auto.
      apply negb_false_iff; exact Gi.
  - (* ChatFulfilled *)
    destruct (pending w) eqn:P; try exact H.
    unfold handleSubmit_fulfilled.
    destruct (imageDirective JSON_parse _) as [prompt|] eqn:D.
    + unfold handleImageGeneration.
      rewrite S2 by (apply S4; reflexivity); simpl negb; cbv iota.
      unfold steady; simpl.
      repeat split; auto.
      intros p Hp; injection Hp as <-.
      eapply imageDirective_nonempty; exact D.
    + apply steady_reply; auto; [rewrite P; reflexivity|].
      unfold logEntryOk; simpl; repeat split; try discriminate.
      * apply parseResponse_nonempty.
      * apply parseResponse_valid.
  - (* ChatRejected *)
    destruct (pending w) eqn:P; try exact H.
    unfold handleSubmit_rejected.
    destruct (getApiErrorMessage onLine _); [|apply steady_dropped; exact H].
    apply steady_reply; auto; [rewrite P; reflexivity|].
    apply textMessage_ok.
  - (* ImagesFulfilled *)
    destruct (pending w) eqn:P; try exact H.
    unfold handleImageGeneration_fulfilled, imageFailed.
    destruct imageBytes as [b|]; [destruct (truthy b) eqn:T|];
      try (destruct (getApiErrorMessage onLine _);
           [|apply steady_dropped; exact H]);
      apply steady_reply; auto; try (rewrite P; reflexivity);
        try apply textMessage_ok.
    unfold logEntryOk; simpl; repeat split; try discriminate.
    constructor; [|constructor]; simpl; split.
    + apply S6; reflexivity.
    + exists b; split; [destruct b; discriminate|reflexivity].
  - (* ImagesRejected *)
    destruct (pending w) eqn:P; try exact H.
    unfold handleImageGeneration_rejected, imageFailed.
    destruct (getApiErrorMessage onLine _); [|apply steady_dropped; exact H].
    apply steady_reply; auto; [rewrite P; reflexivity|].
    apply textMessage_ok.
  - (* MicClick *)
    unfold handleListen; destruct (isSpeechSupported pf); [|exact H].
    destruct (isListening (state w));
      (eapply steady_same; [exact H | reflexivity ..]).
  - (* TtsToggle *)
    unfold handleTtsToggle; destruct (isTtsSupported pf); [|exact H].
    eapply steady_same; [exact H | reflexivity ..].
Qed.

Lemma dispatch_steady : forall ev w,
    steady init w -> steady init (dispatch JSON_parse parseResponse pf ev w).
Proof.
  intros ev w H; unfold dispatch.
  eapply steady_same; [apply handle_steady; exact H | ..];
    rewrite ?runEffects_state, ?runEffects_pending; reflexivity.
Qed.

Lemma reached_steady : forall evs,
    steady init (reached JSON_parse pf init evs).
Proof.
  intros evs; unfold reached, run.
  generalize mount_steady; generalize (mount pf init).
  induction evs as [|ev evs IH]; intros w H; simpl; auto.
  apply IH, dispatch_steady; exact H.
Qed.

(** *** The turns that end with one assistant message *)






End Steady.

(** X7: in every world the component reaches, loading is shown exactly while
    a request is in flight; the session exists exactly after a start-up
    that created it; a request in flight has both the session and the image
    client; and the input field is disabled exactly while a request is in
    flight or there is no session. *)
Theorem phases_and_handles : forall JSON_parse pf init evs,
    let w := reached JSON_parse pf init evs in
    isLoading (state w) = busy (pending w)
    /\ chat (state w) = isReady init
    /\ (busy (pending w) = true -> chat (state w) = true /\ ai (state w) = true)
    /\ inputDisabled (state w) = busy (pending w) || negb (isReady init).
Proof.
  intros JSON_parse pf init evs w.
  destruct (reached_steady JSON_parse pf init evs)
    as (S1 & S2 & S3 & S4 & _).
  fold w in S1, S2, S3, S4; unfold inputDisabled.
  rewrite S3, S1; repeat split; auto.
  rewrite <- S1; auto.
Qed.



(** X9: an Image part in the log of a world the component reaches has a
    prompt that is not empty and a data URL with a payload that is not
    empty. *)
Theorem images_have_payload : forall JSON_parse pf init evs m imageUrl prompt,
    In m (messages (state (reached JSON_parse pf init evs))) ->
    In (Image imageUrl prompt) (parts m) ->
    prompt <> []
    /\ exists bytes, bytes <> [] /\ imageUrl = dataUrlPrefix ++ bytes.
Proof.
  intros JSON_parse pf init evs m imageUrl prompt Hm Hp.
  destruct (reached_steady JSON_parse pf init evs)
    as (_ & _ & _ & _ & _ & _ & S7).
  rewrite Forall_forall in S7; destruct (S7 m Hm) as (_ & V & _).
  rewrite Forall_forall in V; exact (V _ Hp).
Qed.

(** X10: in every world the component reaches, every message of the log has
    at least one part, and a user message is one Text part whose content is
    not blank. *)
Theorem log_entries_wellformed : forall JSON_parse pf init evs m,
    In m (messages (state (reached JSON_parse pf init evs))) ->
    parts m <> []
    /\ (role m = RoleUser ->
        exists content, parts m = [Text content]
                        /\ truthy (trim content) = true).
Proof.
  intros JSON_parse pf init evs m Hm.
  destruct (reached_steady JSON_parse pf init evs)
    as (_ & _ & _ & _ & _ & _ & S7).
  rewrite Forall_forall in S7; destruct (S7 m Hm) as (A & _ & B); auto.
Qed.

Lemma log_entries_wellformed_witness :
  exists content,
    [Text (str "hi")] = [Text content] /\ truthy (trim content) = true.
Proof.
  apply (@log_entries_wellformed Json.parse ttsPlatform Ready helloTurn
           (textMessage RoleUser (str "hi"))); [|reflexivity].
  vm_compute; auto.
Defined.

Lemma images_have_payload_witness :
  str "a red fox" <> []
  /\ exists bytes,
      bytes <> [] /\ dataUrlPrefix ++ str "QUJD" = dataUrlPrefix ++ bytes.
Proof.
  apply (@images_have_payload Json.parse ttsPlatform Ready imageTurn
           (mkMessage RoleAi
              [Image (dataUrlPrefix ++ str "QUJD") (str "a red fox")]));
    vm_compute; auto.
Defined.

(** *** A start-up without a session *)

Section Frozen.

Variable JSON_parse : jsstring -> option value.
Variable parser : jsstring -> list MessagePart.
Variable pf : Platform.

Lemma dispatch_frozen : forall ev w,
    chat (state w) = false -> pending w = NoRequest ->
    let w' := dispatch JSON_parse parser pf ev w in
    chat (state w') = false /\ pending w' = NoRequest
    /\ messages (state w') = messages (state w)
    /\ isLoading (state w') = isLoading (state w).
Proof.
  intros ev w Hc Hp w'; unfold w', dispatch.
  rewrite runEffects_state, runEffects_pending.
  destruct ev; simpl handle; try rewrite Hp; auto.
  - unfold handleSubmit; rewrite Hc.
    rewrite orb_true_r; auto.
  - unfold handleListen; destruct (isSpeechSupported pf); simpl; auto.
    destruct (isListening (state w)); simpl; auto.
  - unfold handleTtsToggle; destruct (isTtsSupported pf); simpl; auto.
Qed.

End Frozen.

(** X11: after a start-up that made no session (no key, or a failure), the
    log keeps what the start-up left in it whatever happens: its one
    start-up message, or nothing when it was a failure on which
    [getApiErrorMessage] raised; no request is made, loading is never
    shown and the submit button stays disabled. *)
Theorem no_session_no_turn : forall JSON_parse pf init evs,
    init <> Ready ->
    let w := reached JSON_parse pf init evs in
    messages (state w) = messages (state (mount pf init))
    /\ length (messages (state w)) = startupMessages init
    /\ length (messages (state w)) <= 1
    /\ (length (messages (state w)) = 0 <->
        exists aiCreated error onLine raised,
          init = Failed aiCreated error onLine
          /\ getApiErrorMessage onLine error = Abrupt raised)
    /\ isLoading (state w) = false /\ pending w = NoRequest
    /\ submitDisabled (state w) = true.
Proof.
  intros JSON_parse pf init evs Hi w.
  assert (M : chat (state (mount pf init)) = false
              /\ pending (mount pf init) = NoRequest
              /\ isLoading (state (mount pf init)) = false
              /\ length (messages (state (mount pf init)))
                 = startupMessages init).
  { unfold mount; rewrite runEffects_state, runEffects_pending.
    destruct init as [| |[|] error onLine]; simpl;
      try destruct (getApiErrorMessage onLine error); simpl; auto.
    elim Hi; reflexivity. }
  assert (G : forall w0,
             chat (state w0) = false -> pending w0 = NoRequest ->
             let w1 := run JSON_parse parseResponse pf evs w0 in
             chat (state w1) = false /\ pending w1 = NoRequest
             /\ messages (state w1) = messages (state w0)
             /\ isLoading (state w1) = isLoading (state w0)).
  { unfold run; induction evs as [|ev evs' IH]; intros w0 Hc Hp; simpl; auto.
    destruct (dispatch_frozen JSON_parse parseResponse pf ev w0 Hc Hp)
      as (Hc' & Hp' & Hm' & Hl').
    destruct (IH _ Hc' Hp') as (A & B & C & D).
    rewrite C, D, Hm', Hl'; auto. }
  destruct M as (Mc & Mp & Ml & Mn).
  destruct (G _ Mc Mp) as (A & B & C & D).
  fold (reached JSON_parse pf init evs) in A, B, C, D; fold w in A, B, C, D.
  rewrite C, D, Mn.
  split; [reflexivity|]. split; [reflexivity|].
  split; [|split; [|repeat split; auto]].
  - destruct init as [| |a error onLine]; simpl; auto.
    destruct (getApiErrorMessage onLine error); auto.
  - destruct init as [| |a error onLine]; simpl.
    + split; [discriminate|].
      intros (a & e & o & r & X & _); discriminate.
    + elim Hi; reflexivity.
    + destruct (getApiErrorMessage onLine error) as [text|raised] eqn:E.
      * split; [discriminate|].
        intros (a' & e' & o' & r' & X & Y).
        injection X as <- <- <-; rewrite E in Y; discriminate.
      * split; auto; intros _.
        exists a, error, onLine, raised; auto.
  - unfold submitDisabled; rewrite A; simpl; apply orb_true_r.
Qed.

Lemma no_session_no_turn_witness :
  messages (state (reached Json.parse ttsPlatform MissingKey imageTurn))
  = [textMessage RoleAi missingKeyText]
  /\ messages (state (reached Json.parse ttsPlatform
                        (Failed true numericMessage true) imageTurn))
     = [].
Proof.
  split.
  - apply (@no_session_no_turn Json.parse ttsPlatform MissingKey imageTurn).
    discriminate.
  - apply (@no_session_no_turn Json.parse ttsPlatform
             (Failed true numericMessage true) imageTurn).
    discriminate.
Defined.

(** *** The log only grows *)

(** X12: the log only grows: after any events from any world the old log is
    a prefix of the new one, and at most one message is added for each
    event. *)
Theorem log_grows : forall JSON_parse parser pf evs w,
    exists added,
      messages (state (run JSON_parse parser pf evs w))
      = messages (state w) ++ added
      /\ length added <= length evs.
Proof.
  intros JSON_parse parser pf; unfold run.
  induction evs as [|ev evs IH]; intros w; simpl.
  - exists []; rewrite app_nil_r; auto.
  - destruct (IH (dispatch JSON_parse parser pf ev w)) as (added & E & L).
    rewrite E; unfold dispatch; rewrite runEffects_state.
    destruct (handle_LogStep JSON_parse parser pf ev w)
      as [Same | m Hm _ | m Hm _ _ _ _].
    + rewrite Same; exists added; split; auto.
    + rewrite Hm, <- app_assoc; exists ([m] ++ added); simpl; split; auto; lia.
    + rewrite Hm, <- app_assoc; exists ([m] ++ added); simpl; split; auto; lia.
Qed.

(** *** What is spoken *)

Lemma lastOf_In : forall (A : Type) (l : list A) x, lastOf l = Some x -> In x l.
Proof.
  induction l as [|y l IH]; intros x H; [discriminate|].
  destruct l as [|z l]; [injection H as ->; left; reflexivity|].
  right; apply IH; exact H.
Qed.

Lemma lastSpoken_from_log : forall log u,
    In u (lastSpoken log) ->
    u <> [] /\ exists m, In m log /\ role m = RoleAi /\ u = textToSpeak m.
Proof.
  intros log u; unfold lastSpoken.
  destruct (lastOf log) as [m|] eqn:L; [|intros []].
  destruct (role m) eqn:R; [intros []|].
  destruct (truthy (textToSpeak m)) eqn:T; [|intros []].
  intros [<-|[]]; split.
  - destruct (textToSpeak m); discriminate.
  - exists m; repeat split; auto using lastOf_In.
Qed.

Lemma handle_speech_incl : forall JSON_parse parser pf ev w u,
    In u (speech (handle JSON_parse parser pf ev w)) -> In u (speech w).
Proof.
  intros JSON_parse parser pf ev w u; destruct ev; simpl handle; auto.
  - unfold handleSubmit.
    destruct (negb (truthy (trim (input (state w)))) || isLoading (state w)
              || negb (chat (state w))); auto; simpl.
    destruct (isTtsSupported pf); simpl; auto; intros [].
  - destruct (pending w); auto.
    unfold handleSubmit_fulfilled.
    destruct (imageDirective JSON_parse _); auto.
    unfold handleImageGeneration; destruct (ai (state w)); auto.
  - destruct (pending w); auto.
  - destruct (pending w); auto.
  - destruct (pending w); auto.
  - unfold handleListen; destruct (isSpeechSupported pf); simpl; auto.
    destruct (isListening (state w)), (isTtsSupported pf); simpl; auto;
      intros [].
  - unfold handleTtsToggle; destruct (isTtsSupported pf); simpl; auto.
    destruct (isTtsEnabled (state w)); simpl; auto; intros [].
  - simpl; destruct (speech w); simpl; auto.
Qed.

Lemma handle_log_incl : forall JSON_parse parser pf ev w m,
    In m (messages (state w)) ->
    In m (messages (state (handle JSON_parse parser pf ev w))).
Proof.
  intros JSON_parse parser pf ev w m H.
  destruct (handle_LogStep JSON_parse parser pf ev w)
    as [Same | m' Hm _ | m' Hm _ _ _ _]; rewrite ?Same, ?Hm; auto;
    apply in_or_app; left; exact H.
Qed.

Lemma dispatch_spokenFromLog : forall JSON_parse parser pf ev w,
    spokenFromLog w -> spokenFromLog (dispatch JSON_parse parser pf ev w).
Proof.
  intros JSON_parse parser pf ev w H u; unfold dispatch.
  rewrite runEffects_speech, runEffects_state, ttsEffect_spec.
  set (w1 := handle JSON_parse parser pf ev w).
  assert (Old : In u (speech w1) ->
                u <> []
                /\ exists m, In m (messages (state w1)) /\ role m = RoleAi
                             /\ u = textToSpeak m).
  { intros Hu; apply handle_speech_incl in Hu.
    destruct (H u Hu) as (Hne & m & Hm & Hr & He).
    split; auto; exists m; repeat split; auto.
    apply handle_log_incl; exact Hm. }
  destruct (depsChanged _ _); auto.
  destruct (isTtsEnabled (state w1) && isTtsSupported pf); auto.
  intros Hu; apply in_app_or in Hu as [Hu|Hu]; auto.
  apply lastSpoken_from_log; exact Hu.
Qed.

(** X13: in every world the component reaches, every utterance in the queue
    of the synthesizer is not empty and is what [textToSpeak] gives for an
    assistant message of the log: user messages, code and images are never
    spoken. *)
Theorem only_assistant_text_spoken : forall JSON_parse pf init evs u,
    In u (speech (reached JSON_parse pf init evs)) ->
    u <> []
    /\ exists m, In m (messages (state (reached JSON_parse pf init evs)))
                 /\ role m = RoleAi /\ u = textToSpeak m.
Proof.
  intros JSON_parse pf init evs.
  assert (K : spokenFromLog (reached JSON_parse pf init evs)).
  { unfold reached, run.
    assert (M : spokenFromLog (mount pf init)).
    { intros u Hu.
      destruct (mount_quiet pf init) as (_ & Q2 & _).
      rewrite Q2 in Hu; [destruct Hu|].
      unfold mount; rewrite runEffects_state.
      destruct init as [| |[|] error onLine]; simpl;
        try destruct (getApiErrorMessage onLine error); reflexivity. }
    revert M; generalize (mount pf init).
    induction evs as [|ev evs IH]; intros w M; simpl; auto.
    apply IH, dispatch_spokenFromLog; exact M. }
  exact K.
Qed.

Lemma only_assistant_text_spoken_witness :
  str "Hello" <> []
  /\ exists m,
      In m (messages (state (reached Json.parse ttsPlatform Ready
                               (TtsToggle :: helloTurn))))
      /\ role m = RoleAi /\ str "Hello" = textToSpeak m.
Proof.
  apply (@only_assistant_text_spoken Json.parse ttsPlatform Ready
           (TtsToggle :: helloTurn) (str "Hello")).
  vm_compute; auto.
Defined.

(** X14: in every world the component reaches, nothing is in the queue of
    the synthesizer while speech output is off, while loading is shown, or
    when the platform has no synthesizer. *)
Theorem silent_when_off_or_busy : forall JSON_parse pf init evs,
    let w := reached JSON_parse pf init evs in
    (isTtsEnabled (state w) = false \/ isLoading (state w) = true
     \/ isTtsSupported pf = false) ->
    speech w = [].
Proof.
  intros JSON_parse pf init evs w H.
  destruct (reached_quiet JSON_parse pf init evs) as (Q1 & Q2 & Q3 & _).
  destruct (reached_steady JSON_parse pf init evs) as (_ & _ & S3 & _).
  fold w in Q1, Q2, Q3, S3.
  destruct H as [H|[H|H]].
  - apply Q2; exact H.
  - apply Q3; rewrite S3 in H; intros E; rewrite E in H; discriminate.
  - apply Q2; destruct (isTtsEnabled (state w)); auto.
    rewrite Q1 in H; auto.
Qed.

Lemma silent_when_off_or_busy_witness :
  speech (reached Json.parse ttsPlatform Ready askAloud) = [].
Proof.
  apply (@silent_when_off_or_busy Json.parse ttsPlatform Ready askAloud).
  right; left; reflexivity.
Defined.

Lemma eqb_eq : forall a b, JS.eqb a b = true <-> a = b.
Proof.
  induction a as [|x a IH]; intros [|y b]; simpl; split; intros H;
    try discriminate; auto.
  - apply andb_true_iff in H as (H1 & H2).
    apply N.eqb_eq in H1; apply IH in H2; subst; reflexivity.
  - injection H as -> ->; rewrite N.eqb_refl; apply IH; reflexivity.
Qed.

Lemma guard_disabled : forall s,
    negb (truthy (trim (input s))) || isLoading s || negb (chat s)
    = submitDisabled s.
Proof.
  intros s; unfold submitDisabled.
  destruct (isLoading s), (truthy (trim (input s))), (chat s); reflexivity.
Qed.

(** X15: a submit in a state where the button is enabled appends the draft,
    untrimmed, as the user's message, empties the draft, shows loading,
    leaves a request in flight, stops the recognizer if it was listening,
    cancels speech where the platform has a synthesizer, and makes the
    effect speak nothing. *)
Theorem submit_starts_turn : forall JSON_parse parser pf w,
    submitDisabled (state w) = false ->
    dispatch JSON_parse parser pf FormSubmit w = submitted pf w.
Proof.
  intros JSON_parse parser pf w H.
  unfold dispatch, handle, handleSubmit; rewrite guard_disabled, H.
  unfold runEffects; simpl state.
  destruct (depsChanged _ _); [|reflexivity].
  rewrite ttsEffect_spec; simpl isTtsEnabled; simpl messages.
  unfold append; erewrite lastSpoken_user;
    [ | apply lastOf_app | reflexivity ].
  rewrite app_nil_r.
  destruct (isTtsEnabled (state w) && isTtsSupported pf); reflexivity.
Qed.

Lemma submit_starts_turn_witness :
  dispatch Json.parse parseResponse ttsPlatform FormSubmit
           (reached Json.parse ttsPlatform Ready
              [TtsToggle; InputChange (str " show me ")])
  = submitted ttsPlatform
      (reached Json.parse ttsPlatform Ready
         [TtsToggle; InputChange (str " show me ")]).
Proof.
  apply submit_starts_turn; reflexivity.
Defined.

(** X16: the submit button is disabled in exactly the states in which
    [handleSubmit] changes nothing. *)
Theorem submit_disabled_iff_noop : forall JSON_parse parser pf w,
    submitDisabled (state w) = true
    <-> dispatch JSON_parse parser pf FormSubmit w = w.
Proof.
  intros JSON_parse parser pf w; split.
  - intros H; unfold dispatch, handle, handleSubmit.
    rewrite guard_disabled, H.
    unfold runEffects; rewrite depsChanged_same; reflexivity.
  - intros H; destruct (submitDisabled (state w)) eqn:D; auto.
    unfold dispatch in H.
    apply (f_equal (fun x => messages (state x))) in H.
    rewrite runEffects_state in H.
    unfold handle, handleSubmit in H; rewrite guard_disabled, D in H.
    simpl in H; symmetry in H; unfold append in H.
    elim (@not_self_append _ _ _ H).
Qed.

(** X17: switching speech output off empties the queue of the synthesizer
    and clears the flag; switching it on again sets the flag. *)
Theorem toggle_off_cancels : forall JSON_parse parser pf w,
    isTtsSupported pf = true -> isTtsEnabled (state w) = true ->
    let w' := dispatch JSON_parse parser pf TtsToggle w in
    speech w' = [] /\ isTtsEnabled (state w') = false
    /\ isTtsEnabled
         (state (dispatch JSON_parse parser pf TtsToggle w')) = true.
Proof.
  intros JSON_parse parser pf w Hs He w'.
  assert (A : speech w' = [] /\ isTtsEnabled (state w') = false).
  { unfold w', dispatch.
    rewrite runEffects_speech, runEffects_state, ttsEffect_spec.
    unfold handle, handleTtsToggle, setIsTtsEnabled; rewrite Hs, He; simpl.
    destruct (depsChanged _ _); auto. }
  destruct A as (A1 & A2); repeat split; auto.
  unfold dispatch; rewrite runEffects_state.
  unfold handle, handleTtsToggle, setIsTtsEnabled; rewrite Hs; simpl.
  rewrite A2; reflexivity.
Qed.

Lemma toggle_off_cancels_witness :
  speech (dispatch Json.parse parseResponse ttsPlatform TtsToggle
            (reached Json.parse ttsPlatform Ready
               (helloTurn ++ [TtsToggle])))
  = [].
Proof.
  apply (@toggle_off_cancels Json.parse parseResponse ttsPlatform
           (reached Json.parse ttsPlatform Ready (helloTurn ++ [TtsToggle])));
    reflexivity.
Defined.

(** X18: a click on the microphone does nothing without a recognizer; with
    one it leaves the log and the request in flight alone and cancels
    speech, and it starts the capture with an empty draft when not
    listening and stops the capture, keeping the draft, when listening. *)
Theorem mic_click : forall JSON_parse parser pf w,
    let w' := dispatch JSON_parse parser pf MicClick w in
    (isSpeechSupported pf = false -> w' = w)
    /\ (isSpeechSupported pf = true ->
        messages (state w') = messages (state w)
        /\ pending w' = pending w
        /\ (isTtsSupported pf = true -> speech w' = [])
        /\ (isListening (state w) = false ->
            input (state w') = [] /\ isListening (state w') = true
            /\ capturing w' = true)
        /\ (isListening (state w) = true ->
            input (state w') = input (state w) /\ capturing w' = false)).
Proof.
  intros JSON_parse parser pf w w'; unfold w', dispatch, handle, handleListen.
  split; intros H; rewrite H; simpl negb; cbv iota.
  - unfold runEffects; rewrite depsChanged_same; reflexivity.
  - destruct (isListening (state w)) eqn:L;
      unfold runEffects; simpl state;
      rewrite depsChanged_eq by reflexivity;
      (repeat split; try discriminate; auto);
      intros T; simpl; rewrite T; reflexivity.
Qed.

Lemma mic_click_witness :
  speech (dispatch Json.parse parseResponse ttsPlatform MicClick
            (reached Json.parse ttsPlatform Ready (TtsToggle :: helloTurn)))
  = [].
Proof.
  apply (@mic_click Json.parse parseResponse ttsPlatform
           (reached Json.parse ttsPlatform Ready (TtsToggle :: helloTurn)));
    reflexivity.
Defined.

(** X6: for an input with one fenced block and no other backtick, the block
    is shown with a Run button exactly when its tag is [js] or
    [javascript] in any letter case, and as an HTML preview block exactly
    when its tag is [html] in any letter case. *)
Theorem block_views : forall pre tag interior post,
    forallb isWordChar tag = true -> interior <> [] ->
    noBacktick pre = true -> noBacktick interior = true ->
    noBacktick post = true ->
    let views := map renderPart
                     (parseResponse (pre ++ refence tag interior ++ post)) in
    (existsb hasRunButton views = true
     <-> toLowerCase tag = str "js" \/ toLowerCase tag = str "javascript")
    /\ (existsb isHtmlView views = true <-> toLowerCase tag = str "html").
Proof.
  intros pre tag interior post Hw Hi Hpre Hint Hpost views.
  unfold views; rewrite block_parse by auto.
  repeat rewrite map_app; repeat rewrite existsb_app.
  assert (T : forall s, existsb hasRunButton (map renderPart (textPart s)) = false
                        /\ existsb isHtmlView (map renderPart (textPart s)) = false).
  { intros [|c s]; simpl; auto.
    destruct (truthy (trim (c :: s))); auto. }
  destruct (T pre) as (-> & ->); destruct (T post) as (-> & ->).
  repeat rewrite orb_false_r; simpl.
  assert (L : languageOf tag = toLowerCase tag \/
              (tag = [] /\ languageOf tag = plaintext)).
  { destruct tag; [right; auto|left; reflexivity]. }
  destruct (JS.eqb (languageOf tag) (str "html")) eqn:Eh; simpl.
  - apply eqb_eq in Eh; split; split; intros H; try discriminate; auto.
    + destruct L as [L|(-> & L)]; rewrite L in Eh;
        [|discriminate].
      destruct H as [H|H]; rewrite H in Eh; discriminate.
    + destruct L as [L|(-> & L)]; rewrite L in Eh; [exact Eh|discriminate].
  - rewrite orb_false_r; unfold isRunnable; split; split; intros H;
      try discriminate.
    + apply orb_true_iff in H as [H|H]; apply eqb_eq in H;
        destruct L as [L|(-> & L)]; rewrite L in H; try discriminate; auto.
    + destruct L as [L|(-> & L)]; [|destruct H; discriminate].
      rewrite L; destruct H as [-> | ->]; reflexivity.
    + destruct L as [L|(-> & L)]; [|discriminate].
      rewrite L, H in Eh; discriminate.
Qed.

Lemma block_views_witness :
  existsb hasRunButton
    (map renderPart
       (parseResponse (str "try " ++ refence (str "JS") (str "f()") ++ [])))
  = true.
Proof.
  apply (@block_views (str "try ") (str "JS") (str "f()") []);
    try reflexivity; [discriminate | left; reflexivity].
Defined.

(** X23: a reply whose text is missing or blank is logged as an assistant
    message with one empty Text part, which is rendered as nothing and not
    spoken, and the turn ends. *)
Theorem blank_reply_logged : forall JSON_parse pf text w,
    pending w = AwaitingReply ->
    JSON_parse [] = None ->
    trim (match text with Some t => t | None => [] end) = [] ->
    let w' := dispatch JSON_parse parseResponse pf (ChatFulfilled text) w in
    messages (state w') = messages (state w) ++ [mkMessage RoleAi [Text []]]
    /\ map renderPart [Text []] = [NoView]
    /\ speech w' = speech w
    /\ isLoading (state w') = false /\ pending w' = NoRequest.
Proof.
  intros JSON_parse pf text w Hp Hj Ht w'; unfold w', dispatch.
  rewrite runEffects_speech, runEffects_state, runEffects_pending,
    ttsEffect_spec.
  unfold handle; rewrite Hp; unfold handleSubmit_fulfilled, imageDirective.
  rewrite Ht, Hj; simpl.
  change (parseResponse []) with [Text ([] : jsstring)].
  repeat split; auto.
  unfold append; rewrite lastSpoken_append by reflexivity; simpl.
  rewrite app_nil_r.
  destruct (depsChanged _ _); [|reflexivity].
  destruct (isTtsEnabled (state w) && isTtsSupported pf); reflexivity.
Qed.

Lemma blank_reply_logged_witness :
  messages (state (dispatch Json.parse parseResponse ttsPlatform
                     (ChatFulfilled None)
                     (reached Json.parse ttsPlatform Ready askAloud)))
  = messages (state (reached Json.parse ttsPlatform Ready askAloud))
    ++ [mkMessage RoleAi [Text []]].
Proof.
  apply (@blank_reply_logged Json.parse ttsPlatform None
           (reached Json.parse ttsPlatform Ready askAloud));
    reflexivity.
Defined.

(** ** The snippet runner *)

Lemma nth_pushAt_other : forall hs ref r line,
    r <> ref -> nth r (pushAt ref line hs) [] = nth r hs [].
Proof.
  induction hs as [|h hs IH]; intros [|ref] [|r] line H; simpl; auto;
    try (elim H; reflexivity).
Qed.

Section RunnerMore.

Variable engine : jsstring -> Behaviour.

(** Under the interceptor of a run, the calls reach the platform's
    function in order and touch no array but the one of the run. *)
Lemma run_forwards : forall calls logs w,
    consoleLog w = Interceptor logs Native ->
    let w' := fold_left (fun w0 args => callLog (consoleLog w0) args w0)
                        calls w in
    printed w' = printed w ++ calls
    /\ forall r, r <> logs -> nth r (arrays w') [] = nth r (arrays w) [].
Proof.
  induction calls as [|args calls IH]; intros logs w Hc; cbv zeta;
    simpl fold_left.
  - rewrite app_nil_r; auto.
  - set (w1 := callLog (consoleLog w) args w).
    assert (E : w1 = mkRealm (Interceptor logs Native)
                       (pushAt logs (logLine args) (arrays w))
                       (printed w ++ [args]))
      by (unfold w1; rewrite Hc; simpl; rewrite Hc; reflexivity).
    destruct (IH logs w1) as (H1 & H2); [rewrite E; reflexivity|].
    assert (P : printed w1 = printed w ++ [args]) by (rewrite E; reflexivity).
    assert (A : arrays w1 = pushAt logs (logLine args) (arrays w))
      by (rewrite E; reflexivity).
    rewrite P, <- app_assoc in H1; split; [exact H1|].
    intros r Hr; rewrite (H2 r Hr), A.
    apply nth_pushAt_other; exact Hr.
Qed.

Lemma handleRunCode_output_ref : forall code w,
    output (snd (fst (handleRunCode engine code w))) = S (length (arrays w)).
Proof.
  intros code w; unfold handleRunCode, alloc; simpl.
  destruct (tryBlock engine code _ _) as [w3 tried].
  destruct tried as [u|e]; [|destruct (catchBlock e _)]; simpl;
    rewrite length_app; simpl; lia.
Qed.

Lemma handleRunCode_world : forall code w,
    consoleLog w = Native ->
    printed (realmAfter (handleRunCode engine code w))
    = printed w ++ logCalls (engine code)
    /\ forall r, r < length (arrays w) ->
                 nth r (arrays (realmAfter (handleRunCode engine code w))) []
                 = nth r (arrays w) [].
Proof.
  intros code w Hn; unfold handleRunCode, realmAfter, alloc, tryBlock.
  simpl consoleLog; rewrite Hn.
  set (w2 := setConsoleLog _ _).
  destruct (@run_forwards (logCalls (engine code))
              (length (arrays w ++ [[]])) w2 eq_refl) as (H1 & H2).
  fold (runSnippet (engine code) w2) in H1, H2.
  assert (B : forall r, r < length (arrays w) ->
                        nth r (arrays (runSnippet (engine code) w2)) []
                        = nth r (arrays w) []).
  { intros r Hr; rewrite H2 by (rewrite length_app; simpl; lia).
    unfold w2; simpl; repeat rewrite app_nth1; auto.
    rewrite length_app; simpl; lia. }
  assert (C : forall r line, r < length (arrays w) ->
                nth r (pushAt (length (arrays w ++ [[]])) line
                         (arrays (runSnippet (engine code) w2))) []
                = nth r (arrays w) []).
  { intros r line Hr; rewrite nth_pushAt_other, B; auto.
    rewrite length_app; simpl; lia. }
  destruct (completion (engine code)) as [result|e].
  - destruct (isUndefined result); simpl negb; cbv iota.
    + simpl; split; auto.
    + destruct (resultLine result) as [line|e]; simpl; [split; auto|].
      destruct (catchBlock e _); simpl; split; auto.
  - destruct (catchBlock e _); simpl; split; auto.
Qed.

End RunnerMore.

(** X19: from a realm where [console.log] is the platform's, a run captures
    one line for each call of [console.log], then the result line, and
    the platform's console still receives every call, in order. *)
Theorem run_captures_and_forwards : forall engine code w,
    consoleLog w = Native ->
    let r := handleRunCode engine code w in
    linesAfter r
    = map logLine (logCalls (engine code))
      ++ resultLines (completion (engine code))
    /\ printed (realmAfter r) = printed w ++ logCalls (engine code).
Proof.
  intros engine code w Hn r; unfold r; split.
  - apply handleRunCode_lines; exact Hn.
  - apply handleRunCode_world; exact Hn.
Qed.

Lemma run_captures_and_forwards_witness :
  linesAfter (handleRunCode exampleEngine snippetLog freshRealm)
  = [str "after"]
  /\ printed (realmAfter (handleRunCode exampleEngine snippetLog freshRealm))
     = [[stringVal (str "after")]].
Proof.
  apply (@run_captures_and_forwards exampleEngine snippetLog freshRealm).
  reflexivity.
Defined.

(** X20: whatever [console.log] was bound to and however the run ends (the
    snippet returns, throws, or the [catch] block itself throws),
    [console.log] is bound to the same function afterwards and the block
    refers to the array of this run; a run of a throwing snippet ends
    normally only when the message of the thrown value could be read, and
    that message is then the error of the block. *)
Theorem console_restored_on_every_path : forall engine code w,
    let r := handleRunCode engine code w in
    consoleLog (realmAfter r) = consoleLog w
    /\ output (snd (fst r)) = S (length (arrays w))
    /\ (forall u, completionAfter r = Normal u ->
                  forall e, completion (engine code) = Abrupt e ->
                            exists m, getMessage e = Normal m
                                      /\ errorAfter r = m).
Proof.
  intros engine code w r; unfold r; split; [apply handleRunCode_restores|].
  split; [apply handleRunCode_output_ref|].
  intros u Hu e He.
  unfold handleRunCode, completionAfter, errorAfter, alloc, tryBlock in *.
  rewrite He in *; simpl in *.
  unfold catchBlock in *.
  destruct (getMessage e) as [m|e']; simpl in *; [|discriminate].
  exists m; auto.
Qed.

(** X21: a thrown value that has a message, and a result whose serialization
    throws one, end the run normally: the message is the error of the
    block and the lines captured before are kept with it, with no result
    line. *)
Theorem failure_reported_with_lines : forall engine code w message text,
    consoleLog w = Native ->
    completion (engine code) = Abrupt (ThrownObject message text)
    \/ (exists result,
           completion (engine code) = Normal result
           /\ isUndefined result = false
           /\ stringified result = Abrupt (ThrownObject message text)) ->
    let r := handleRunCode engine code w in
    completionAfter r = Normal tt
    /\ errorAfter r = message
    /\ linesAfter r = map logLine (logCalls (engine code)).
Proof.
  intros engine code w message text Hn H r; unfold r.
  rewrite handleRunCode_lines by exact Hn.
  destruct H as [H|(result & H & Hu & Hs)].
  - destruct (@handleRunCode_catches engine code w _ _ H) as (C & E).
    rewrite C, E, H; simpl; rewrite app_nil_r; auto.
  - rewrite H; unfold resultLines, resultLine; rewrite Hu, Hs, app_nil_r.
    unfold handleRunCode, completionAfter, errorAfter, alloc, tryBlock.
    rewrite H, Hu; unfold resultLine; rewrite Hs; simpl; auto.
Qed.

Lemma failure_reported_with_lines_witness :
  errorAfter (handleRunCode cycleEngine snippetReturnCycle freshRealm)
  = Some (str "Converting circular structure to JSON")
  /\ linesAfter (handleRunCode cycleEngine snippetReturnCycle freshRealm)
     = [str "before"].
Proof.
  destruct (@failure_reported_with_lines cycleEngine snippetReturnCycle
              freshRealm (Some (str "Converting circular structure to JSON"))
              (str "TypeError: Converting circular structure to JSON")
              eq_refl)
    as (_ & E & L).
  - right; exists cyclicVal; repeat split.
  - split; [exact E | exact L].
Defined.

(** X22: runs do not leak into each other: after any first run, failed or
    not, a second run captures its own lines only, the lines of the first
    block stay what they were, and [console.log] is the platform's again. *)
Theorem runs_isolated : forall engine code1 code2 w,
    consoleLog w = Native ->
    let r1 := handleRunCode engine code1 w in
    let r2 := handleRunCode engine code2 (realmAfter r1) in
    linesAfter r2
    = map logLine (logCalls (engine code2))
      ++ resultLines (completion (engine code2))
    /\ outputLines (realmAfter r2) (snd (fst r1)) = linesAfter r1
    /\ consoleLog (realmAfter r2) = Native.
Proof.
  intros engine code1 code2 w Hn r1 r2.
  assert (N1 : consoleLog (realmAfter r1) = Native)
    by (unfold r1; rewrite handleRunCode_restores; exact Hn).
  split; [apply handleRunCode_lines; exact N1|].
  split; [|unfold r2; rewrite handleRunCode_restores; exact N1].
  unfold outputLines, linesAfter, outputLines, r2.
  apply handleRunCode_world; [exact N1|].
  unfold r1; rewrite handleRunCode_output_ref.
  fold r1; unfold r1, handleRunCode, realmAfter, alloc, tryBlock.
  simpl consoleLog; rewrite Hn.
  set (w2 := setConsoleLog _ _).
  destruct (@run_intercepted (logCalls (engine code1))
              (length (arrays w ++ [[]])) w2) as (_ & H2 & _);
    [reflexivity | unfold w2; simpl; repeat rewrite length_app; simpl; lia |].
  fold (runSnippet (engine code1) w2) in H2.
  assert (L : length (arrays (runSnippet (engine code1) w2))
              = S (S (length (arrays w))))
    by (rewrite H2; unfold w2; simpl; repeat rewrite length_app; simpl; lia).
  destruct (completion (engine code1)) as [result|e].
  - destruct (isUndefined result); simpl negb; cbv iota; simpl; [lia|].
    destruct (resultLine result) as [line|e]; simpl;
      [rewrite length_pushAt; lia|].
    destruct (catchBlock e _); simpl; lia.
  - destruct (catchBlock e _); simpl; lia.
Qed.

Lemma runs_isolated_witness :
  linesAfter
    (handleRunCode exampleEngine snippetLog
       (realmAfter (handleRunCode exampleEngine snippetThrowNull freshRealm)))
  = [str "after"]
  /\ outputLines
       (realmAfter
          (handleRunCode exampleEngine snippetLog
             (realmAfter
                (handleRunCode exampleEngine snippetThrowNull freshRealm))))
       (snd (fst (handleRunCode exampleEngine snippetThrowNull freshRealm)))
     = [str "before"].
Proof.
  destruct (@runs_isolated exampleEngine snippetThrowNull snippetLog
              freshRealm eq_refl) as (A & B & _).
  split; [exact A | exact B].
Defined.
